(** * Poisson significance scoring of event trains (lib/analysis/modules/Mapper.py)

    A shallow embedding of the "playing with poisson distributions" part of
    Mapper.py: [poissonProb] (both definitions), [poissonScore],
    [poissonIntegral] with its module-level cache, and the two blame
    functions.

    Numbers.  Python floats that the caller supplies (rates, event times,
    window bounds) are real numbers.  Values that numpy computes are [num]:
    a real number or one of the IEEE specials inf, -inf, nan, because numpy
    arithmetic never raises on a zero divisor but yields them.  Arithmetic on
    finite values is exact; rounding, overflow and the sign of zero are not
    part of the model.

    Errors.  A Python exception is a value [Err e] of [result]. *)

From Stdlib Require Import Reals Lra Lia ZArith List.
From stdpp Require Import gmap strings.
Import ListNotations.

Open Scope R_scope.

(** ** Numbers computed by numpy *)

Inductive num : Type :=
  | Fin (r : R)
  | PInf
  | NInf
  | NaN.

Definition isnan (x : num) : bool :=
  match x with NaN => true | _ => false end.

Definition nopp (x : num) : num :=
  match x with
  | Fin r => Fin (- r)
  | PInf => NInf
  | NInf => PInf
  | NaN => NaN
  end.

Definition nadd (x y : num) : num :=
  match x, y with
  | NaN, _ | _, NaN => NaN
  | Fin a, Fin b => Fin (a + b)
  | PInf, NInf | NInf, PInf => NaN
  | PInf, _ | _, PInf => PInf
  | NInf, _ | _, NInf => NInf
  end.

Definition nsub (x y : num) : num := nadd x (nopp y).

(** Sign of a real as numpy sees it: 1, 0 or -1. *)
Definition Rsign (r : R) : Z :=
  if Rlt_dec 0 r then 1%Z else if Rlt_dec r 0 then (-1)%Z else 0%Z.

Definition inf_of_sign (s : Z) : num :=
  match s with
  | Zpos _ => PInf
  | Zneg _ => NInf
  | Z0 => NaN
  end.

Definition nsign (x : num) : Z :=
  match x with
  | Fin r => Rsign r
  | PInf => 1%Z
  | NInf => (-1)%Z
  | NaN => 0%Z
  end.

Definition nmul (x y : num) : num :=
  match x, y with
  | NaN, _ | _, NaN => NaN
  | Fin a, Fin b => Fin (a * b)
  | _, _ => inf_of_sign (nsign x * nsign y)
  end.

(** numpy true division: a zero divisor gives inf, -inf or nan. *)
Definition ndiv (x y : num) : num :=
  match x, y with
  | NaN, _ | _, NaN => NaN
  | Fin a, Fin b =>
      if Req_dec_T b 0 then inf_of_sign (Rsign a) else Fin (a / b)
  | Fin _, _ => Fin 0
  | _, Fin b =>
      if Req_dec_T b 0 then x else inf_of_sign (nsign x * Rsign b)
  | _, _ => NaN
  end.

(** [a < b] on numpy values; any comparison with nan is false. *)
Definition nltb (x y : num) : bool :=
  match x, y with
  | NaN, _ | _, NaN => false
  | Fin a, Fin b => if Rlt_dec a b then true else false
  | NInf, NInf | PInf, PInf => false
  | NInf, _ | _, PInf => true
  | _, _ => false
  end.

(** The binary step of [ndarray.min] and [ndarray.max]: nan propagates. *)
Definition nmin2 (x y : num) : num :=
  match x, y with
  | NaN, _ | _, NaN => NaN
  | _, _ => if nltb y x then y else x
  end.

Definition nmax2 (x y : num) : num :=
  match x, y with
  | NaN, _ | _, NaN => NaN
  | _, _ => if nltb x y then y else x
  end.

(** [a.sum()], [a.min()], [a.max()] of a one-dimensional array; [min] and
    [max] are called on non-empty arrays only. *)
Definition nsum (a : list num) : num := fold_left nadd a (Fin 0).

Definition nmin (a : list num) : num :=
  match a with
  | [] => NaN
  | x :: a' => fold_left nmin2 a' x
  end.

Definition nmax (a : list num) : num :=
  match a with
  | [] => NaN
  | x :: a' => fold_left nmax2 a' x
  end.

(** ** scipy.stats.poisson(mu).cdf(k)

    scipy is not part of the repository; the spec calls this quantity
    CDF(k; mu).  For [mu >= 0] it is [exp(-mu) * sum_{j <= floor k} mu^j/j!],
    and 0 below the support; an invalid mean gives nan.  A mean that is not
    finite cannot arise from finite inputs and is given nan as well. *)

Definition poisson_term (mu : R) (j : nat) : R := mu ^ j / INR (fact j).

Definition poisson_cdf_R (mu : R) (k : nat) : R :=
  exp (- mu) * sum_f_R0 (poisson_term mu) k.

Definition poisson_cdf (mu k : num) : num :=
  match mu with
  | Fin m =>
      if Rlt_dec m 0 then NaN
      else
        match k with
        | Fin kr =>
            if Rlt_dec kr 0 then Fin 0
            else Fin (poisson_cdf_R m (Z.to_nat (Int_part kr)))
        | PInf => Fin 1
        | NInf => Fin 0
        | NaN => NaN
        end
  | _ => NaN
  end.


(** ** Python exceptions and results *)

Inductive type_error : Type :=
  | UnexpectedKeyword (name : string)
  | TooManyPositional
  | MissingArgument (name : string)
  | MultipleValues (name : string)
  | UnsupportedOperand (op : string)
  | NoLen
  | NotSubscriptable
  | NotIterable.

Inductive pyerr : Type :=
  | TypeError (why : type_error)
  | NameError (name : string)
  | AttributeError (name : string)
  | IndexError
  | ZeroDivisionError
  | ValueError
  | OverflowError
  | AssertionError
  | NotModelled.

Inductive result (A : Type) : Type :=
  | Ok (a : A)
  | Err (e : pyerr).

Arguments Ok {A} a.
Arguments Err {A} e.

Global Instance result_ret : MRet result := fun A a => Ok a.

Global Instance result_bind : MBind result := fun A B f m =>
  match m with
  | Ok a => f a
  | Err e => Err e
  end.

(** ** Python values

    The values that reach the modelled functions: Python scalars, numpy
    float64 scalars, Python lists of floats and one-dimensional float
    arrays.  An operation whose result would be an array of higher
    dimension is outside this universe and gives [NotModelled]. *)

Inductive pyval : Type :=
  | VBool (b : bool)
  | VInt (z : Z)
  | VFloat (r : R)
  | VNum (x : num)
  | VList (l : list num)
  | VArray (a : list num).

(** An event sequence handed to the functions is a list or an array of
    finite floats. *)
Definition list_of_floats (l : list R) : pyval := VList (map Fin l).
Definition array_of_floats (l : list R) : pyval := VArray (map Fin l).

Definition is_numpy (v : pyval) : bool :=
  match v with
  | VNum _ | VArray _ => true
  | _ => false
  end.

(** A Python number (bool counts as int). *)
Definition py_scalar (v : pyval) : option (Z + R) :=
  match v with
  | VBool b => Some (inl (Z.b2z b))
  | VInt z => Some (inl z)
  | VFloat r => Some (inr r)
  | _ => None
  end.

Definition scalar_R (s : Z + R) : R :=
  match s with
  | inl z => IZR z
  | inr r => r
  end.

(** The operand as numpy sees it ([asarray]): a zero-dimensional value
    or a one-dimensional array. *)
Inductive npval : Type :=
  | NScalar (x : num)
  | NArray (a : list num).

Definition np_of (v : pyval) : npval :=
  match v with
  | VBool b => NScalar (Fin (IZR (Z.b2z b)))
  | VInt z => NScalar (Fin (IZR z))
  | VFloat r => NScalar (Fin r)
  | VNum x => NScalar x
  | VList l => NArray l
  | VArray a => NArray a
  end.

(** Elementwise operation with numpy broadcasting. *)
Definition np_binop (f : num -> num -> num) (a b : npval) : result pyval :=
  match a, b with
  | NScalar x, NScalar y => Ok (VNum (f x y))
  | NScalar x, NArray ys => Ok (VArray (map (f x) ys))
  | NArray xs, NScalar y => Ok (VArray (map (fun x => f x y) xs))
  | NArray xs, NArray ys =>
      if (length xs =? length ys)%nat then Ok (VArray (zip_with f xs ys))
      else
        match xs, ys with
        | [x], _ => Ok (VArray (map (f x) ys))
        | _, [y] => Ok (VArray (map (fun x => f x y) xs))
        | _, _ => Err ValueError
        end
  end.

(** [a + b], [a - b], [a * b], [a / b] (Python 2, no true-division import). *)

Definition py_add (a b : pyval) : result pyval :=
  if is_numpy a || is_numpy b then np_binop nadd (np_of a) (np_of b)
  else
    match py_scalar a, py_scalar b with
    | Some (inl x), Some (inl y) => Ok (VInt (x + y))
    | Some x, Some y => Ok (VFloat (scalar_R x + scalar_R y))
    | _, _ =>
        match a, b with
        | VList l1, VList l2 => Ok (VList (l1 ++ l2))
        | _, _ => Err (TypeError (UnsupportedOperand "+"))
        end
    end.

Definition py_sub (a b : pyval) : result pyval :=
  if is_numpy a || is_numpy b then np_binop nsub (np_of a) (np_of b)
  else
    match py_scalar a, py_scalar b with
    | Some (inl x), Some (inl y) => Ok (VInt (x - y))
    | Some x, Some y => Ok (VFloat (scalar_R x - scalar_R y))
    | _, _ => Err (TypeError (UnsupportedOperand "-"))
    end.

Definition py_mul (a b : pyval) : result pyval :=
  if is_numpy a || is_numpy b then np_binop nmul (np_of a) (np_of b)
  else
    match py_scalar a, py_scalar b with
    | Some (inl x), Some (inl y) => Ok (VInt (x * y))
    | Some x, Some y => Ok (VFloat (scalar_R x * scalar_R y))
    | _, _ =>
        match a, b, py_scalar a, py_scalar b with
        | VList l, _, _, Some (inl n) | _, VList l, Some (inl n), _ =>
            Ok (VList (concat (replicate (Z.to_nat n) l)))
        | _, _, _, _ => Err (TypeError (UnsupportedOperand "*"))
        end
    end.

Definition py_div (a b : pyval) : result pyval :=
  if is_numpy a || is_numpy b then np_binop ndiv (np_of a) (np_of b)
  else
    match py_scalar a, py_scalar b with
    | Some (inl x), Some (inl y) =>
        if (y =? 0)%Z then Err ZeroDivisionError else Ok (VInt (x / y))
    | Some x, Some y =>
        if Req_dec_T (scalar_R y) 0 then Err ZeroDivisionError
        else Ok (VFloat (scalar_R x / scalar_R y))
    | _, _ => Err (TypeError (UnsupportedOperand "/"))
    end.

(** [rate ** 0.5] on a Python float: Python 2 refuses a negative base. *)
Definition py_pow_half (r : R) : result R :=
  if Rlt_dec r 0 then Err ValueError else Ok (sqrt r).

(** [x ** 1.0] on a numpy float64. *)
Definition npow_one (x : num) : num := x.

Definition py_truthy (v : pyval) : result bool :=
  match v with
  | VBool b => Ok b
  | VInt z => Ok (negb (z =? 0)%Z)
  | VFloat r => Ok (if Req_dec_T r 0 then false else true)
  | VNum x => Ok (match x with Fin r => if Req_dec_T r 0 then false else true | _ => true end)
  | VList l => Ok (negb (length l =? 0)%nat)
  | VArray [x] => Ok (match x with Fin r => if Req_dec_T r 0 then false else true | _ => true end)
  | VArray _ => Err ValueError
  end.

Definition py_len (v : pyval) : result nat :=
  match v with
  | VList l => Ok (length l)
  | VArray a => Ok (length a)
  | _ => Err (TypeError NoLen)
  end.

(** [v[i]] for an index [0 <= i]. *)
Definition py_index (v : pyval) (i : nat) : result pyval :=
  match v with
  | VList l | VArray l =>
      match l !! i with
      | Some x => Ok (VNum x)
      | None => Err IndexError
      end
  | _ => Err (TypeError NotSubscriptable)
  end.

(** [v[i:]] for an index [0 <= i]. *)
Definition py_slice_from (v : pyval) (i : nat) : result pyval :=
  match v with
  | VList l => Ok (VList (drop i l))
  | VArray a => Ok (VArray (drop i a))
  | _ => Err (TypeError NotSubscriptable)
  end.

(** [list(v)]. *)
Definition py_list (v : pyval) : result (list num) :=
  match v with
  | VList l | VArray l => Ok l
  | _ => Err (TypeError NotIterable)
  end.

(** [l.pop(i)] for an index [0 <= i]: the list that remains. *)
Definition list_pop {A} (l : list A) (i : nat) : result (list A) :=
  if (i <? length l)%nat then Ok (delete i l) else Err IndexError.

(** [a[i1:i2]] with Python's treatment of negative and large indices. *)
Definition py_slice {A} (l : list A) (i1 i2 : Z) : list A :=
  let n := Z.of_nat (length l) in
  let clamp := fun i : Z => if (i <? 0)%Z then Z.max 0 (i + n) else Z.min i n in
  let a := clamp i1 in
  let b := clamp i2 in
  take (Z.to_nat (b - a)) (drop (Z.to_nat a) l).

(** [int(x)] of a numpy float64: truncation toward zero. *)
Definition Rtrunc (r : R) : Z :=
  if Rle_dec 0 r then Int_part r else (- Int_part (- r))%Z.

Definition py_int (x : num) : result Z :=
  match x with
  | Fin r => Ok (Rtrunc r)
  | NaN => Err ValueError
  | _ => Err OverflowError
  end.

(** [np.array(ys)] of a list of scalars. *)
Fixpoint np_array (ys : list pyval) : result (list num) :=
  match ys with
  | [] => Ok []
  | y :: ys' =>
      match np_of y with
      | NScalar x => a ← np_array ys'; Ok (x :: a)
      | NArray _ => Err NotModelled
      end
  end.

(** [v.min()] and [v.max()]. *)
Definition np_min (v : pyval) : result num :=
  match v with
  | VArray [] => Err ValueError
  | VArray a => Ok (nmin a)
  | VNum x => Ok x
  | _ => Err (AttributeError "min")
  end.

Definition np_max (v : pyval) : result num :=
  match v with
  | VArray [] => Err ValueError
  | VArray a => Ok (nmax a)
  | VNum x => Ok x
  | _ => Err (AttributeError "max")
  end.

(** [stats.poisson(mu).cdf(k)], vectorised by scipy. *)
Definition scipy_poisson_cdf (mu k : pyval) : result pyval :=
  np_binop poisson_cdf (np_of mu) (np_of k).

(** ** Function objects, the module namespace and calls

    A [def] statement binds a name of the module namespace to a function
    object; a call looks the name up when it is made.  The namespace below
    records [poissonProb], the one name of the modelled code that is defined
    twice (lines 121 and 266). *)

Record pyfun : Type := {
  fn_params : list string;
  fn_defaults : gmap string pyval;
  fn_body : gmap string pyval -> result pyval
}.

Fixpoint bind_positional (params : list string) (args : list pyval)
    (locals : gmap string pyval) : result (gmap string pyval) :=
  match args, params with
  | [], _ => Ok locals
  | _ :: _, [] => Err (TypeError TooManyPositional)
  | v :: args', p :: params' => bind_positional params' args' (<[p := v]> locals)
  end.

Fixpoint bind_keywords (params : list string) (kwargs : list (string * pyval))
    (locals : gmap string pyval) : result (gmap string pyval) :=
  match kwargs with
  | [] => Ok locals
  | (k, v) :: rest =>
      if bool_decide (k ∈ params) then
        match locals !! k with
        | Some _ => Err (TypeError (MultipleValues k))
        | None => bind_keywords params rest (<[k := v]> locals)
        end
      else Err (TypeError (UnexpectedKeyword k))
  end.

Fixpoint fill_defaults (params : list string) (defaults : gmap string pyval)
    (locals : gmap string pyval) : result (gmap string pyval) :=
  match params with
  | [] => Ok locals
  | p :: ps =>
      match locals !! p with
      | Some _ => fill_defaults ps defaults locals
      | None =>
          match defaults !! p with
          | Some d => fill_defaults ps defaults (<[p := d]> locals)
          | None => Err (TypeError (MissingArgument p))
          end
      end
  end.

Definition bind_args (f : pyfun) (args : list pyval)
    (kwargs : list (string * pyval)) : result (gmap string pyval) :=
  l1 ← bind_positional (fn_params f) args ∅;
  l2 ← bind_keywords (fn_params f) kwargs l1;
  fill_defaults (fn_params f) (fn_defaults f) l2.

Definition call (g : gmap string pyfun) (name : string) (args : list pyval)
    (kwargs : list (string * pyval)) : result pyval :=
  match g !! name with
  | None => Err (NameError name)
  | Some f => locals ← bind_args f args kwargs; fn_body f locals
  end.

Definition getvar (locals : gmap string pyval) (x : string) : result pyval :=
  match locals !! x with
  | Some v => Ok v
  | None => Err (NameError x)
  end.

(** A [for] loop that appends one value per index. *)
Fixpoint for_append {A} (body : nat -> result A) (idx : list nat) : result (list A) :=
  match idx with
  | [] => Ok []
  | i :: rest => y ← body i; ys ← for_append body rest; Ok (y :: ys)
  end.

(** ** poissonProb, first definition (line 121) *)

(** One turn of the loop: the value appended to [y]. *)
Definition poissonProb_121_iter (locals : gmap string pyval) (i : nat) : result pyval :=
  xvals ← getvar locals "xvals";
  x ← py_index xvals i;
  cfs ← getvar locals "correctForSelection";
  c ← py_truthy cfs;
  e ← (if c : bool then rate ← getvar locals "rate"; py_div (VFloat 1) rate
       else Ok (VInt 0));
  rate ← getvar locals "rate";
  xe ← py_add x e;
  mu ← py_mul rate xe;
  scipy_poisson_cdf mu (VInt (Z.of_nat i + 1)).

Definition poissonProb_121_body (locals : gmap string pyval) : result pyval :=
  xvals ← getvar locals "xvals";
  n ← py_len xvals;
  y ← for_append (poissonProb_121_iter locals) (seq 0 n);
  a ← np_array y;
  py_sub (VFloat 1) (VArray a).

Definition def_poissonProb_121 : pyfun := {|
  fn_params := ["events"; "xvals"; "rate"; "correctForSelection"];
  fn_defaults := {["correctForSelection" := VBool false]};
  fn_body := poissonProb_121_body
|}.

(** ** poissonProb, second definition (line 266) *)

Definition poissonProb_266_body (locals : gmap string pyval) : result pyval :=
  l ← getvar locals "l";
  t ← getvar locals "t";
  mu ← py_mul l t;
  n ← getvar locals "n";
  k ← py_sub n (VInt 1);
  scipy_poisson_cdf mu k.

Definition def_poissonProb_266 : pyfun := {|
  fn_params := ["n"; "t"; "l"];
  fn_defaults := ∅;
  fn_body := poissonProb_266_body
|}.

(** The namespace after line 143 has run, and after the whole sequence of
    top-level definitions has run. *)
Definition globals_after_121 : gmap string pyfun :=
  <["poissonProb" := def_poissonProb_121]> ∅.

Definition module_globals : gmap string pyfun :=
  <["poissonProb" := def_poissonProb_266]> globals_after_121.

(** ** poissonScore (line 145) *)

Definition poissonScore (g : gmap string pyfun) (events : pyval) (rate : R) : result num :=
  pp ← call g "poissonProb" [events; events; VFloat rate]
          [("correctForSelection", VBool true)];
  n ← py_len pp;
  if (n =? 0)%nat then Ok (Fin 1)
  else
    m ← np_min pp;
    s ← py_pow_half rate;
    Ok (ndiv (npow_one (ndiv (Fin 1) m)) (Fin s)).

(** ** poissonScoreBlame (line 204) *)

Definition poissonScoreBlame_iter (g : gmap string pyfun) (ev : pyval) (rate : R)
    (i : nat) : result num :=
  ev2 ← py_list ev;
  ev2 ← list_pop ev2 i;
  tail1 ← py_slice_from ev i;
  p1 ← call g "poissonProb" [ev; tail1; VFloat rate] [];
  pp1 ← py_div (VFloat 1) p1;
  tail2 ← py_slice_from ev i;
  p2 ← call g "poissonProb" [VList ev2; tail2; VFloat rate] [];
  pp2 ← py_div (VFloat 1) p2;
  q ← py_div pp1 pp2;
  np_max q.

(** The list [pp] when the loop has finished. *)
Definition poissonScoreBlame_entries (g : gmap string pyfun) (ev : pyval) (rate : R)
    : result (list num) :=
  n ← py_len ev;
  for_append (poissonScoreBlame_iter g ev rate) (seq 0 n).

Definition poissonScoreBlame (g : gmap string pyfun) (ev : pyval) (rate : R)
    : result (list num) :=
  n ← py_len ev;
  if (n =? 0)%nat then Ok []
  else
    pp ← poissonScoreBlame_entries g ev rate;
    if existsb isnan pp then Err AssertionError else Ok pp.

(** ** poissonIntegral (line 169) and its cache

    [poissonIntCache] is a module-level dict from the running event count
    to the curve computed for it.  It is threaded through every call; an
    exception leaves the entries written so far in place.  The parameter
    [plot] keeps its default [False]: the branch that draws is not part of
    the model. *)

Definition grid_points : nat := 1000.

(** [np.linspace(a, b, n)]. *)
Definition linspace (a b : R) (n : nat) : list R :=
  map (fun j => a + INR j * ((b - a) / INR (n - 1))) (seq 0 n).

(** [events.sort()] on floats. *)
Fixpoint insert_sorted (x : R) (l : list R) : list R :=
  match l with
  | [] => [x]
  | y :: l' => if Rle_dec x y then x :: l else y :: insert_sorted x l'
  end.

Definition sort_floats (l : list R) : list R := fold_right insert_sorted [] l.

(** The curve stored for event count [nev]. *)
Definition build_curve (rate : R) (xvals : list R) (nev : nat) : list num :=
  map (fun x => nsub (Fin 1) (poisson_cdf (Fin (rate * x)) (Fin (INR nev)))) xvals.

Record integral_state : Type := {
  tot : num;
  t_last : R;
  nev : nat
}.

Fixpoint poissonIntegral_loop (rate tMin tMax dt : R) (xvals : list R)
    (events : list R) (st : integral_state) (cache : gmap nat (list num))
    : result integral_state * gmap nat (list num) :=
  match events with
  | [] => (Ok st, cache)
  | ev :: rest =>
      if Rlt_dec ev tMin then
        poissonIntegral_loop rate tMin tMax dt xvals rest st cache
      else
        let ev := if Rlt_dec tMax ev then tMax else ev in
        match py_int (ndiv (Fin (t_last st - tMin)) (Fin dt)) with
        | Err e => (Err e, cache)
        | Ok i1 =>
            match py_int (ndiv (Fin (ev - tMin)) (Fin dt)) with
            | Err e => (Err e, cache)
            | Ok i2 =>
                let cache' :=
                  match cache !! nev st with
                  | Some _ => cache
                  | None => <[nev st := build_curve rate xvals (nev st)]> cache
                  end in
                let probs := py_slice (default [] (cache' !! nev st)) i1 i2 in
                let st' := {|
                  tot := nadd (tot st) (nsum (map (ndiv (Fin 1)) probs));
                  t_last := ev;
                  nev := S (nev st)
                |} in
                if Req_dec_T ev tMax then (Ok st', cache')
                else poissonIntegral_loop rate tMin tMax dt xvals rest st' cache'
            end
        end
  end.

Definition poissonIntegral (events : list R) (rate tMin tMax : R)
    (cache : gmap nat (list num)) : result num * gmap nat (list num) :=
  let xvals := linspace tMin tMax grid_points in
  let dt := nth 1 xvals 0 - nth 0 xvals 0 in
  let events' := sort_floats events ++ [tMax] in
  let st0 := {| tot := Fin 0; t_last := tMin; nev := 0 |} in
  match poissonIntegral_loop rate tMin tMax dt xvals events' st0 cache with
  | (Ok st, cache') => (Ok (nmul (tot st) (Fin dt)), cache')
  | (Err e, cache') => (Err e, cache')
  end.

(** ** poissonIntegralBlame (line 220) *)

Fixpoint poissonIntegralBlame_loop (ev : list R) (rate xMin xMax : R)
    (idx : list nat) (cache : gmap nat (list num))
    : result (list num) * gmap nat (list num) :=
  match idx with
  | [] => (Ok [], cache)
  | i :: rest =>
      match list_pop ev i with
      | Err e => (Err e, cache)
      | Ok ev2 =>
          match poissonIntegral ev rate xMin xMax cache with
          | (Err e, c1) => (Err e, c1)
          | (Ok pp1, c1) =>
              match poissonIntegral ev2 rate xMin xMax c1 with
              | (Err e, c2) => (Err e, c2)
              | (Ok pp2, c2) =>
                  match poissonIntegralBlame_loop ev rate xMin xMax rest c2 with
                  | (Err e, c3) => (Err e, c3)
                  | (Ok pp, c3) => (Ok (ndiv pp1 pp2 :: pp), c3)
                  end
              end
          end
      end
  end.

(** The list [pp] when the loop has finished. *)
Definition poissonIntegralBlame_entries (ev : list R) (rate xMin xMax : R)
    (cache : gmap nat (list num)) : result (list num) * gmap nat (list num) :=
  poissonIntegralBlame_loop ev rate xMin xMax (seq 0 (length ev)) cache.

Definition poissonIntegralBlame (ev : list R) (rate xMin xMax : R)
    (cache : gmap nat (list num)) : result (list num) * gmap nat (list num) :=
  match poissonIntegralBlame_entries ev rate xMin xMax cache with
  | (Err e, c) => (Err e, c)
  | (Ok pp, c) => if existsb isnan pp then (Err AssertionError, c) else (Ok pp, c)
  end.

(** ** The quantities the specification names *)

(** The loop of [poissonProb] (line 121) on an array of window ends: entry
    [i] (counted from 0) is [1 - CDF(i + 1; rate * (x + e))]. *)
Definition exceedance (rate e : R) (i : nat) (x : R) : R :=
  1 - poisson_cdf_R (rate * (x + e)) (S i).

Definition exceedances (rate e : R) (xvals : list R) : list R :=
  imap (exceedance rate e) xvals.

Definition Rmin_list (x : R) (l : list R) : R := fold_left Rmin l x.

(** The specification's wording of the window probability of ScoreEngine:
    the probability that [i] or more events occur, [i] counted from 1; with
    [i] counted from 0 this is [1 - CDF(i; rate * (x + 1/rate))]. *)
Definition spec_prefix_probability (rate : R) (i : nat) (x : R) : R :=
  1 - poisson_cdf_R (rate * (x + 1 / rate)) i.

(** [(1 / p_min) / sqrt(rate)] for the window probabilities [ps], and 1
    when there is none. *)
Definition score_of_probabilities (ps : list R) (rate : R) : R :=
  match ps with
  | [] => 1
  | p :: ps' => 1 / Rmin_list p ps' / sqrt rate
  end.

Definition spec_poissonScore (events : list R) (rate : R) : R :=
  score_of_probabilities (imap (spec_prefix_probability rate) events) rate.

(** The specification's wording of windowedExceedanceProbability: the
    count is the number of events at or before the window end. *)
Definition count_at_or_before (events : list R) (x : R) : nat :=
  length (List.filter (fun ev => if Rle_dec ev x then true else false) events).

Definition spec_windowedExceedanceProbability (events xvals : list R) (rate : R)
    (correctForSelection : bool) : list R :=
  let e := if correctForSelection then 1 / rate else 0 in
  map (fun x => 1 - poisson_cdf_R (rate * (x + e)) (count_at_or_before events x)) xvals.

(** probabilityOfAtLeastN of the specification is the second definition of
    [poissonProb], called with an integer count and two floats. *)
Definition probabilityOfAtLeastN (n : Z) (t rate : R) : result pyval :=
  call module_globals "poissonProb" [VInt n; VFloat t; VFloat rate] [].

(** windowedExceedanceProbability of the specification is the first
    definition of [poissonProb]. *)
Definition windowedExceedanceProbability (events xvals : pyval) (rate : R)
    (correctForSelection : bool) : result pyval :=
  call globals_after_121 "poissonProb"
    [events; xvals; VFloat rate; VBool correctForSelection] [].

(** ** Auxiliary notions for the proofs *)

(** The local namespace of the first [poissonProb] once its four parameters
    are bound, and of the second with its three. *)
Definition locals_121 (events xvals rate cfs : pyval) : gmap string pyval :=
  <["correctForSelection" := cfs]>
    (<["rate" := rate]> (<["xvals" := xvals]> (<["events" := events]> ∅))).

Definition locals_266 (n t l : pyval) : gmap string pyval :=
  <["l" := l]> (<["t" := t]> (<["n" := n]> ∅)).

(** [v] is a Python list or an array holding the values [l]. *)
Definition is_seq (v : pyval) (l : list num) : Prop := v = VList l \/ v = VArray l.

(** The value numpy computes for window end [x] at index [i]. *)
Definition exceedance_num (r e : R) (i : nat) (x : num) : num :=
  nsub (Fin 1) (poisson_cdf (nmul (Fin r) (nadd x (Fin e))) (Fin (IZR (Z.of_nat i + 1)))).


(** The curve that a turn of the loop of [poissonIntegral] reads for count
    [k], and the cache that the turn leaves behind. *)
Definition cached_curve (cache : gmap nat (list num)) (rate : R) (xvals : list R)
    (k : nat) : list num :=
  match cache !! k with
  | Some c => c
  | None => build_curve rate xvals k
  end.

Definition cache_after (cache : gmap nat (list num)) (rate : R) (xvals : list R)
    (k : nat) : gmap nat (list num) :=
  match cache !! k with
  | Some _ => cache
  | None => <[k := build_curve rate xvals k]> cache
  end.

Definition Rsum (l : list R) : R := fold_left Rplus l 0.

(** The reciprocal of [1 - CDF(k; rate * x)], and the Riemann sum that
    [poissonIntegral] forms over the grid when no event lies inside the
    window, from the curve of rate [curve_rate]. *)
Definition improbability (rate : R) (k : nat) (x : R) : R :=
  1 / (1 - poisson_cdf_R (rate * x) k).

Definition integral_no_events (curve_rate tMin tMax : R) : R :=
  (0 + Rsum (map (improbability curve_rate 0) (take 999 (linspace tMin tMax grid_points))))
  * ((tMax - tMin) / 999).

(** A finite value other than zero. *)
Definition finite_nonzero (x : num) : Prop := exists r, x = Fin r /\ r <> 0.

(** ** Notions used by the further properties *)

(** A list of floats in ascending order. *)
Fixpoint ascending (l : list R) : Prop :=
  match l with
  | [] => True
  | x :: l' => Forall (Rle x) l' /\ ascending l'
  end.

(** The test [tMin <= ev < tMax]. *)
Definition in_window (tMin tMax ev : R) : bool :=
  if Rlt_dec ev tMin then false else if Rlt_dec ev tMax then true else false.




(** ** poissonProcess (line 108)

    The generator is the one effect of the function.  It is modelled by the
    list of the standard exponential variates that it will deliver next;
    [np.random.exponential(scale)] takes the head of the list and returns
    [scale] times it, and refuses a negative [scale] with ValueError.  A
    run that asks for more variates than the list holds ends in
    [SimNeedsDraw]: on a real generator it would still be looping. *)

Inductive sim_outcome : Type :=
  | SimReturn (events : list R) (rest : list R)
  | SimRaise (e : pyerr)
  | SimNeedsDraw.

(** [tmax is not None and t > tmax]. *)
Definition past_tmax (tmax : option R) (t : R) : bool :=
  match tmax with
  | Some m => if Rlt_dec m t then true else false
  | None => false
  end.

(** [n is not None and len(events) >= n]. *)
Definition reached_n (n : option Z) (events : list R) : bool :=
  match n with
  | Some k => (k <=? Z.of_nat (length events))%Z
  | None => false
  end.

Fixpoint poissonProcess_loop (rate : R) (tmax : option R) (n : option Z)
    (draws : list R) (t : R) (events : list R) : sim_outcome :=
  if Req_dec_T rate 0 then SimRaise ZeroDivisionError
  else if Rlt_dec (1 / rate) 0 then SimRaise ValueError
  else
    match draws with
    | [] => SimNeedsDraw
    | e :: draws' =>
        let t' := t + 1 / rate * e in
        if past_tmax tmax t' then SimReturn events draws'
        else
          let events' := events ++ [t'] in
          if reached_n n events' then SimReturn events' draws'
          else poissonProcess_loop rate tmax n draws' t' events'
    end.

Definition poissonProcess (rate : R) (tmax : option R) (n : option Z)
    (draws : list R) : sim_outcome :=
  poissonProcess_loop rate tmax n draws 0 [].

(** The arrival times that the variates [draws] give from time [t] on. *)
Fixpoint arrivals (scale t : R) (draws : list R) : list R :=
  match draws with
  | [] => []
  | e :: draws' => (t + scale * e) :: arrivals scale (t + scale * e) draws'
  end.

(** ** maxPoissonProb (line 273) *)

(** [x <= y] on numpy values; false when either is nan. *)
Definition nleb (x y : num) : bool :=
  match x, y with
  | NaN, _ | _, NaN => false
  | Fin a, Fin b => if Rle_dec a b then true else false
  | NInf, _ | _, PInf => true
  | _, _ => false
  end.

(** The scan of [np.argmax] over a float array: the index of the first
    maximum; the first nan, when there is one, counts as the maximum. *)
Fixpoint argmax_scan (mp : num) (best i : nat) (a : list num) : nat :=
  match a with
  | [] => best
  | x :: a' =>
      if nleb x mp then argmax_scan mp best (S i) a'
      else if isnan x then i
      else argmax_scan x i (S i) a'
  end.

Definition argmax (a : list num) : option nat :=
  match a with
  | [] => None
  | x :: a' => Some (if isnan x then 0%nat else argmax_scan x 0 1 a')
  end.

Definition np_argmax (v : pyval) : result nat :=
  match np_of v with
  | NScalar _ => Ok 0%nat
  | NArray a =>
      match argmax a with
      | Some i => Ok i
      | None => Err ValueError
      end
  end.

(** [np.arange(1, n + 1)]. *)
Definition np_arange_1 (n : nat) : pyval :=
  VArray (map (fun i => Fin (INR i)) (seq 1 n)).

Definition maxPoissonProb (g : gmap string pyfun) (ev : pyval) (l : R)
    : result (list pyval) :=
  n ← py_len ev;
  pi ← call g "poissonProb" [np_arange_1 n; ev; VFloat l] [];
  ind ← np_argmax pi;
  top ← py_index pi ind;
  rest ← py_list pi;
  Ok ([top; VInt (Z.of_nat ind)] ++ map VNum rest).

(** The array [pi] of [maxPoissonProb] for finite event times: entry [i],
    counted from 0, is [CDF(i; l * ev_i)]. *)
Definition event_cdfs (l : R) (ev : list R) : list R :=
  imap (fun i x => poisson_cdf_R (l * x) i) ev.

(** [ind] is the first position of the maximum [m] of [l]. *)
Definition is_first_max (l : list R) (ind : nat) (m : R) : Prop :=
  l !! ind = Some m /\
  Forall (fun x => x <= m) l /\
  (forall j y, (j < ind)%nat -> l !! j = Some y -> y < m).

(** ** productlog (line 254) *)

(** [np.log] of a scalar: nan below zero, -inf at zero, never an error. *)
Definition nlog (x : num) : num :=
  match x with
  | Fin r => if Rlt_dec 0 r then Fin (ln r) else if Rlt_dec r 0 then NaN else NInf
  | PInf => PInf
  | NInf | NaN => NaN
  end.

(** The definition at line 254, which rebinds the name defined at line 248.
    Its second parameter [prec] is never read and is left out. *)
Definition productlog (x : num) : num :=
  if nleb x (Fin 500) then
    let lxl := nlog (nadd x (Fin 1)) in
    nadd (nmul (nmul (Fin 0.665) (nadd (Fin 1) (nmul (Fin 0.0195) lxl))) lxl)
         (Fin 0.04)
  else
    nsub (nlog (nsub x (Fin 4)))
         (nmul (nsub (Fin 1) (ndiv (Fin 1) (nlog x))) (nlog (nlog x))).
(** ** Facts about the Poisson CDF *)

Lemma poisson_term_pos mu j : 0 < mu -> 0 < poisson_term mu j.
Proof.
  intros Hmu. unfold poisson_term.
  apply Rdiv_lt_0_compat; [apply pow_lt; assumption | apply INR_fact_lt_0].
Qed.

Lemma poisson_term_nonneg mu j : 0 <= mu -> 0 <= poisson_term mu j.
Proof.
  intros Hmu. unfold poisson_term.
  apply Rmult_le_pos; [apply pow_le; assumption|].
  left. apply Rinv_0_lt_compat, INR_fact_lt_0.
Qed.

Lemma poisson_sum_ge_1 mu k : 0 <= mu -> 1 <= sum_f_R0 (poisson_term mu) k.
Proof.
  intros Hmu. induction k as [|k IH]; simpl.
  - unfold poisson_term. simpl. lra.
  - pose proof (poisson_term_nonneg mu (S k) Hmu). lra.
Qed.

Lemma poisson_sum_le_exp mu k : 0 <= mu -> sum_f_R0 (poisson_term mu) k <= exp mu.
Proof.
  intros Hmu.
  apply sum_incr; [|intros n; apply poisson_term_nonneg; assumption].
  pose proof (proj2_sig (exist_exp mu)) as Hexp. fold (exp mu) in Hexp.
  intros eps Heps. destruct (Hexp eps Heps) as [N HN]. exists N. intros n Hn.
  specialize (HN n Hn).
  erewrite sum_eq; [exact HN|].
  intros i _. unfold poisson_term, Rdiv. apply Rmult_comm.
Qed.

Lemma poisson_sum_lt_exp mu k : 0 < mu -> sum_f_R0 (poisson_term mu) k < exp mu.
Proof.
  intros Hmu.
  pose proof (poisson_sum_le_exp mu (S k) (Rlt_le _ _ Hmu)) as H. simpl in H.
  pose proof (poisson_term_pos mu (S k) Hmu). lra.
Qed.

Lemma poisson_cdf_R_pos mu k : 0 <= mu -> 0 < poisson_cdf_R mu k.
Proof.
  intros Hmu. unfold poisson_cdf_R.
  apply Rmult_lt_0_compat; [apply exp_pos|].
  pose proof (poisson_sum_ge_1 mu k Hmu). lra.
Qed.

Lemma poisson_cdf_R_lt_1 mu k : 0 < mu -> poisson_cdf_R mu k < 1.
Proof.
  intros Hmu. unfold poisson_cdf_R.
  pose proof (poisson_sum_lt_exp mu k Hmu) as H.
  pose proof (exp_pos (- mu)) as Hp.
  replace 1 with (exp (- mu) * exp mu)
    by (rewrite <- exp_plus; replace (- mu + mu) with 0 by lra; apply exp_0).
  apply Rmult_lt_compat_l; assumption.
Qed.

Lemma poisson_cdf_R_S mu k :
  poisson_cdf_R mu (S k) = poisson_cdf_R mu k + exp (- mu) * poisson_term mu (S k).
Proof. unfold poisson_cdf_R. simpl. ring. Qed.

Lemma poisson_cdf_R_lt_S mu k : 0 < mu -> poisson_cdf_R mu k < poisson_cdf_R mu (S k).
Proof.
  intros Hmu. rewrite poisson_cdf_R_S.
  pose proof (Rmult_lt_0_compat _ _ (exp_pos (- mu)) (poisson_term_pos mu (S k) Hmu)).
  lra.
Qed.
Lemma Int_part_IZR z : Int_part (IZR z) = z.
Proof. symmetry. apply Int_part_spec. lra. Qed.

Lemma Rtrunc_IZR z : (0 <= z)%Z -> Rtrunc (IZR z) = z.
Proof.
  intros Hz. unfold Rtrunc. destruct (Rle_dec 0 (IZR z)) as [_|Hn].
  - apply Int_part_IZR.
  - exfalso. apply Hn. apply IZR_le in Hz. exact Hz.
Qed.

Lemma poisson_cdf_count mu (k : nat) :
  0 <= mu -> poisson_cdf (Fin mu) (Fin (IZR (Z.of_nat k))) = Fin (poisson_cdf_R mu k).
Proof.
  intros Hmu. unfold poisson_cdf.
  destruct (Rlt_dec mu 0); [lra|].
  destruct (Rlt_dec (IZR (Z.of_nat k)) 0) as [Hk|_].
  - exfalso. pose proof (IZR_le 0 (Z.of_nat k) (Zle_0_nat k)). lra.
  - rewrite Int_part_IZR, Nat2Z.id. reflexivity.
Qed.

Lemma poisson_cdf_invalid mu k : mu < 0 -> poisson_cdf (Fin mu) k = NaN.
Proof. intros Hmu. unfold poisson_cdf. destruct (Rlt_dec mu 0); [reflexivity|lra]. Qed.

(** ** Evaluating the first poissonProb *)

Section Locals121.
Variables events xvals rate cfs : pyval.

Lemma getvar_121_xvals : getvar (locals_121 events xvals rate cfs) "xvals" = Ok xvals.
Proof. reflexivity. Qed.

Lemma getvar_121_rate : getvar (locals_121 events xvals rate cfs) "rate" = Ok rate.
Proof. reflexivity. Qed.

Lemma getvar_121_cfs :
  getvar (locals_121 events xvals rate cfs) "correctForSelection" = Ok cfs.
Proof. reflexivity. Qed.

End Locals121.

Ltac bind_step := cbn [mbind result_bind mret result_ret].

Lemma py_index_seq v (l : list num) i x :
  is_seq v l -> l !! i = Some x -> py_index v i = Ok (VNum x).
Proof. intros [-> | ->] Hx; unfold py_index; rewrite Hx; reflexivity. Qed.

Lemma py_len_seq v (l : list num) : is_seq v l -> py_len v = Ok (length l).
Proof. intros [-> | ->]; reflexivity. Qed.

Lemma iter_121 events xvals (l : list num) r (c : bool) i x :
  is_seq xvals l -> l !! i = Some x -> (c = true -> r <> 0) ->
  poissonProb_121_iter (locals_121 events xvals (VFloat r) (VBool c)) i
  = Ok (VNum (poisson_cdf (nmul (Fin r) (nadd x (Fin (if c then 1 / r else 0))))
                (Fin (IZR (Z.of_nat i + 1))))).
Proof.
  intros Hs Hx Hr. unfold poissonProb_121_iter.
  rewrite getvar_121_xvals. bind_step.
  rewrite (py_index_seq _ _ _ _ Hs Hx). bind_step.
  rewrite getvar_121_cfs. bind_step.
  rewrite !getvar_121_rate.
  destruct c; bind_step.
  - unfold py_div. cbn [is_numpy orb py_scalar scalar_R].
    destruct (Req_dec_T r 0) as [H0|_]; [exfalso; apply Hr; auto|].
    bind_step. reflexivity.
  - reflexivity.
Qed.

Lemma for_append_imap {A B} (body : nat -> result B) (f : nat -> A -> B) (l : list A) k :
  (forall j x, l !! j = Some x -> body (k + j)%nat = Ok (f j x)) ->
  for_append body (seq k (length l)) = Ok (imap f l).
Proof.
  revert k f. induction l as [|x l IH]; intros k f Hb; [reflexivity|].
  cbn [length seq for_append].
  pose proof (Hb 0%nat x eq_refl) as H0. rewrite Nat.add_0_r in H0. rewrite H0.
  bind_step.
  rewrite (IH (S k) (fun j => f (S j))).
  - reflexivity.
  - intros j y Hy. rewrite <- (Hb (S j) y Hy). f_equal. lia.
Qed.

Lemma np_array_scalars (a : list num) : np_array (map VNum a) = Ok a.
Proof.
  induction a as [|x a IH]; [reflexivity|].
  cbn [map np_array np_of]. rewrite IH. reflexivity.
Qed.

Lemma map_imap {A B C} (g : B -> C) (f : nat -> A -> B) (l : list A) :
  map g (imap f l) = imap (fun i x => g (f i x)) l.
Proof. exact (fmap_imap f g l). Qed.

Lemma imap_VNum {A} (g : nat -> A -> num) (l : list A) :
  imap (fun i x => VNum (g i x)) l = map VNum (imap g l).
Proof. symmetry. apply map_imap. Qed.

(** The first [poissonProb] on window ends [l]: it never reads [events]. *)
Lemma poissonProb_121_body_eval events xvals (l : list num) r (c : bool) :
  is_seq xvals l -> (c = true -> l <> [] -> r <> 0) ->
  poissonProb_121_body (locals_121 events xvals (VFloat r) (VBool c))
  = Ok (VArray (imap (exceedance_num r (if c then 1 / r else 0)) l)).
Proof.
  intros Hs Hr. unfold poissonProb_121_body.
  rewrite getvar_121_xvals. bind_step.
  rewrite (py_len_seq _ _ Hs). bind_step.
  rewrite (for_append_imap _
    (fun i x => VNum (poisson_cdf (nmul (Fin r) (nadd x (Fin (if c then 1 / r else 0))))
                        (Fin (IZR (Z.of_nat i + 1))))) l 0).
  - bind_step. rewrite imap_VNum, np_array_scalars. bind_step.
    unfold py_sub. cbn [is_numpy orb np_of np_binop].
    rewrite map_imap. reflexivity.
  - intros j x Hx. cbn [Nat.add]. eapply iter_121; eauto.
    intros Hc. apply Hr; auto. intros ->. discriminate.
Qed.

Lemma call_121 events xvals rate cfs :
  call globals_after_121 "poissonProb" [events; xvals; rate; cfs] []
  = poissonProb_121_body (locals_121 events xvals rate cfs).
Proof. reflexivity. Qed.

Lemma call_121_kw events xvals rate cfs :
  call globals_after_121 "poissonProb" [events; xvals; rate]
    [("correctForSelection", cfs)]
  = poissonProb_121_body (locals_121 events xvals rate cfs).
Proof. reflexivity. Qed.

Lemma call_121_default events xvals rate :
  call globals_after_121 "poissonProb" [events; xvals; rate] []
  = poissonProb_121_body (locals_121 events xvals rate (VBool false)).
Proof. reflexivity. Qed.

(** ** Finite values *)

Lemma exceedance_num_finite r e i x :
  0 <= r * (x + e) ->
  exceedance_num r e i (Fin x) = Fin (exceedance r e i x).
Proof.
  intros Hmu. unfold exceedance_num, exceedance. cbn [nadd nmul].
  replace (Z.of_nat i + 1)%Z with (Z.of_nat (S i)) by lia.
  rewrite poisson_cdf_count by assumption.
  cbn [nsub nopp nadd]. reflexivity.
Qed.

Lemma exceedance_num_invalid r e i x :
  r * (x + e) < 0 -> exceedance_num r e i (Fin x) = NaN.
Proof.
  intros Hmu. unfold exceedance_num. cbn [nadd nmul].
  rewrite poisson_cdf_invalid by assumption. reflexivity.
Qed.

Lemma imap_map_Fin (f : nat -> R -> R) (g : nat -> num -> num) (l : list R) :
  (forall i x, l !! i = Some x -> g i (Fin x) = Fin (f i x)) ->
  imap g (map Fin l) = map Fin (imap f l).
Proof.
  revert f g. induction l as [|x l IH]; intros f g H; [reflexivity|].
  cbn [map]. rewrite !imap_cons. cbn [map].
  rewrite (H 0%nat x eq_refl). f_equal.
  apply IH. intros i y Hy. apply (H (S i) y Hy).
Qed.

Lemma imap_exceedance_finite r e (l : list R) :
  Forall (fun x => 0 <= r * (x + e)) l ->
  imap (exceedance_num r e) (map Fin l) = map Fin (exceedances r e l).
Proof.
  intros H. apply imap_map_Fin. intros i x Hx.
  apply exceedance_num_finite.
  rewrite Forall_forall in H. apply H. eapply list_elem_of_lookup_2, Hx.
Qed.

(** ** Minimum and maximum of finite arrays *)

Lemma nmin2_Fin a b : nmin2 (Fin a) (Fin b) = Fin (Rmin a b).
Proof.
  unfold nmin2, nltb, Rmin.
  destruct (Rlt_dec b a), (Rle_dec a b); try reflexivity; f_equal; lra.
Qed.

Lemma nmin_Fin p ps : nmin (map Fin (p :: ps)) = Fin (Rmin_list p ps).
Proof.
  unfold nmin, Rmin_list. cbn [map]. revert p.
  induction ps as [|q ps IH]; intros p; [reflexivity|].
  cbn [map fold_left]. rewrite nmin2_Fin. apply IH.
Qed.

Lemma Rmin_list_le_head p ps : Rmin_list p ps <= p.
Proof.
  unfold Rmin_list. revert p. induction ps as [|q ps IH]; intros p; cbn [fold_left]; [lra|].
  eapply Rle_trans; [apply IH | apply Rmin_l].
Qed.

Lemma Rmin_list_le p ps x : In x (p :: ps) -> Rmin_list p ps <= x.
Proof.
  unfold Rmin_list. revert p. induction ps as [|q ps IH]; intros p Hin.
  - destruct Hin as [->|[]]. cbn. lra.
  - cbn [fold_left]. destruct Hin as [->|[->|Hin]].
    + eapply Rle_trans; [apply Rmin_list_le_head | apply Rmin_l].
    + eapply Rle_trans; [apply Rmin_list_le_head | apply Rmin_r].
    + apply IH. right. exact Hin.
Qed.

Lemma Rmin_list_In p ps : In (Rmin_list p ps) (p :: ps).
Proof.
  unfold Rmin_list. revert p. induction ps as [|q ps IH]; intros p.
  - left. reflexivity.
  - cbn [fold_left]. destruct (IH (Rmin p q)) as [H|H].
    + unfold Rmin in H at 1. destruct (Rle_dec p q).
      * left. exact H.
      * right. left. exact H.
    + right. right. exact H.
Qed.

Lemma Rmin_list_pos p ps : Forall (fun x => 0 < x) (p :: ps) -> 0 < Rmin_list p ps.
Proof.
  intros H. rewrite Forall_forall in H. apply H.
  apply list_elem_of_In, Rmin_list_In.
Qed.

(** ** The value of poissonScore under the first poissonProb *)

Lemma exceedance_pos r e i x : 0 < r * (x + e) -> 0 < exceedance r e i x.
Proof.
  intros Hmu. unfold exceedance.
  pose proof (poisson_cdf_R_lt_1 _ (S i) Hmu). lra.
Qed.

Lemma corrected_mean_pos rate x : 0 < rate -> 0 <= x -> 0 < rate * (x + 1 / rate).
Proof.
  intros Hr Hx. replace (rate * (x + 1 / rate)) with (rate * x + 1) by (field; lra).
  pose proof (Rmult_le_pos rate x). lra.
Qed.

Lemma exceedances_pos rate (l : list R) :
  0 < rate -> Forall (fun x => 0 <= x) l ->
  Forall (fun p => 0 < p) (exceedances rate (1 / rate) l).
Proof.
  intros Hr Hl. rewrite Forall_forall. intros p Hp.
  apply list_elem_of_lookup_1 in Hp as [i Hi].
  unfold exceedances in Hi. rewrite list_lookup_imap in Hi.
  destruct (l !! i) as [x|] eqn:Hx; [|discriminate].
  cbn in Hi. injection Hi as <-.
  apply exceedance_pos, corrected_mean_pos; [assumption|].
  rewrite Forall_forall in Hl. apply Hl. eapply list_elem_of_lookup_2, Hx.
Qed.

Lemma poissonScore_empty v rate :
  is_seq v [] -> poissonScore globals_after_121 v rate = Ok (Fin 1).
Proof.
  intros Hs. unfold poissonScore. rewrite call_121_kw.
  rewrite (poissonProb_121_body_eval _ _ [] rate true Hs) by (intros _ H; exfalso; apply H; reflexivity).
  reflexivity.
Qed.

Lemma poissonScore_value v (l : list R) rate :
  is_seq v (map Fin l) -> 0 < rate -> Forall (fun x => 0 <= x) l ->
  poissonScore globals_after_121 v rate
  = Ok (Fin (score_of_probabilities (exceedances rate (1 / rate) l) rate)).
Proof.
  intros Hs Hr Hl. unfold poissonScore. rewrite call_121_kw.
  rewrite (poissonProb_121_body_eval _ _ _ rate true Hs) by (intros _ _; lra).
  rewrite imap_exceedance_finite.
  2:{ eapply Forall_impl; [exact Hl|]. intros x Hx. cbn beta.
      left. apply corrected_mean_pos; assumption. }
  bind_step. cbn [py_len]. bind_step. rewrite length_map.
  pose proof (exceedances_pos rate l Hr Hl) as Hpos.
  assert (Hlen : length (exceedances rate (1 / rate) l) = length l)
    by apply length_imap.
  destruct (exceedances rate (1 / rate) l) as [|p ps] eqn:Hex.
  - reflexivity.
  - cbn [length Nat.eqb]. cbn [map np_min]. bind_step.
    change (Fin p :: map Fin ps) with (map Fin (p :: ps)). rewrite nmin_Fin.
    unfold py_pow_half. destruct (Rlt_dec rate 0); [lra|]. bind_step.
    pose proof (Rmin_list_pos p ps Hpos) as Hmin.
    pose proof (sqrt_lt_R0 rate Hr) as Hsq.
    unfold npow_one, ndiv, score_of_probabilities.
    destruct (Req_dec_T (Rmin_list p ps) 0); [lra|].
    destruct (Req_dec_T (sqrt rate) 0); [lra|]. reflexivity.
Qed.

Lemma score_lt p q rate :
  0 < rate -> 0 < q -> q < p -> 1 / p / sqrt rate < 1 / q / sqrt rate.
Proof.
  intros Hr Hq Hpq.
  pose proof (sqrt_lt_R0 rate Hr) as Hsq.
  apply Rmult_lt_compat_r; [apply Rinv_0_lt_compat; assumption|].
  unfold Rdiv. rewrite !Rmult_1_l.
  apply Rinv_lt_contravar; [|assumption].
  apply Rmult_lt_0_compat; lra.
Qed.

(** ** C1: the value of poissonScore *)

(** C1 (as amended).  For every rate > 0 and every sequence of non-negative
    event times, [poissonScore] under the first [poissonProb] returns 1.0 on
    the empty sequence and otherwise [(1 / p_min) / sqrt rate], where
    [p_min] is the minimum over the events of
    [1 - CDF(i; rate * (t_i + 1/rate))], [i] counted from 1: the
    selection-corrected probability that more than [i] events occur. *)
Theorem poissonScore_min_window (v : pyval) (l : list R) (rate : R) :
  is_seq v (map Fin l) -> 0 < rate -> Forall (fun x => 0 <= x) l ->
  (l = [] -> poissonScore globals_after_121 v rate = Ok (Fin 1)) /\
  (forall p ps,
      imap (fun i x => 1 - poisson_cdf_R (rate * (x + 1 / rate)) (i + 1)) l = p :: ps ->
      poissonScore globals_after_121 v rate = Ok (Fin (1 / Rmin_list p ps / sqrt rate))) /\
  (l <> [] ->
      exists p ps,
        imap (fun i x => 1 - poisson_cdf_R (rate * (x + 1 / rate)) (i + 1)) l = p :: ps).
Proof.
  intros Hs Hr Hl.
  assert (Hex : imap (fun i x => 1 - poisson_cdf_R (rate * (x + 1 / rate)) (i + 1)) l
                = exceedances rate (1 / rate) l).
  { unfold exceedances. apply imap_ext. intros i x _. unfold exceedance.
    rewrite Nat.add_1_r. reflexivity. }
  rewrite Hex. split; [|split].
  - intros ->. apply poissonScore_empty. exact Hs.
  - intros p ps Hp. rewrite (poissonScore_value v l rate Hs Hr Hl), Hp. reflexivity.
  - intros Hne. destruct l as [|x l']; [congruence|].
    unfold exceedances. rewrite imap_cons. eauto.
Qed.

Lemma poissonScore_min_window_witness :
  (([1] : list R) = [] -> poissonScore globals_after_121 (list_of_floats [1]) 1 = Ok (Fin 1)) /\
  (forall p ps,
      imap (fun i x => 1 - poisson_cdf_R (1 * (x + 1 / 1)) (i + 1)) [1] = p :: ps ->
      poissonScore globals_after_121 (list_of_floats [1]) 1
      = Ok (Fin (1 / Rmin_list p ps / sqrt 1))) /\
  (([1] : list R) <> [] ->
      exists p ps,
        imap (fun i x => 1 - poisson_cdf_R (1 * (x + 1 / 1)) (i + 1)) [1] = p :: ps).
Proof.
  apply (poissonScore_min_window (list_of_floats [1]) [1] 1).
  - left. reflexivity.
  - lra.
  - repeat constructor. lra.
Defined.

(** C1 as stated fails: with the window probability read as "[i] or more
    events", the single event at time 1 and rate 1 give a score that the
    code does not return. *)
Lemma poissonScore_not_i_or_more :
  poissonScore globals_after_121 (list_of_floats [1]) 1
  <> Ok (Fin (spec_poissonScore [1] 1)).
Proof.
  rewrite (poissonScore_value (list_of_floats [1]) [1] 1);
    [| left; reflexivity | lra | repeat constructor; lra].
  intros H. injection H as H. revert H.
  unfold spec_poissonScore, score_of_probabilities, exceedances, Rmin_list.
  cbn [imap fold_left]. unfold exceedance, spec_prefix_probability.
  assert (Hmu : 0 < 1 * (1 + 1 / 1)) by lra.
  pose proof (poisson_cdf_R_lt_S _ 0 Hmu) as Hlt.
  pose proof (poisson_cdf_R_lt_1 _ 1 Hmu) as H1.
  pose proof (score_lt (1 - poisson_cdf_R (1 * (1 + 1 / 1)) 0)
                (1 - poisson_cdf_R (1 * (1 + 1 / 1)) 1) 1) as Hs.
  intros Heq. rewrite Heq in Hs. apply (Rlt_irrefl _ (Hs ltac:(lra) ltac:(lra) ltac:(lra))).
Qed.

(** ** C2: the window probability counts by index *)

Lemma for_append_ext {A} (f g : nat -> result A) idx :
  (forall i, f i = g i) -> for_append f idx = for_append g idx.
Proof.
  intros H. induction idx as [|i idx IH]; [reflexivity|].
  cbn [for_append]. rewrite H, IH. reflexivity.
Qed.

(** The first [poissonProb] never reads its [events] argument. *)
Lemma poissonProb_121_ignores_events ev1 ev2 xvals rate cfs :
  call globals_after_121 "poissonProb" [ev1; xvals; rate; cfs] []
  = call globals_after_121 "poissonProb" [ev2; xvals; rate; cfs] [].
Proof.
  rewrite !call_121. unfold poissonProb_121_body.
  rewrite !getvar_121_xvals. bind_step.
  destruct (py_len xvals) as [n|e]; [|reflexivity]. bind_step.
  rewrite (for_append_ext (poissonProb_121_iter (locals_121 ev1 xvals rate cfs))
             (poissonProb_121_iter (locals_121 ev2 xvals rate cfs))); [reflexivity|].
  intros i. reflexivity.
Qed.

Lemma windowedExceedanceProbability_eval events (l : list R) rate (c : bool) :
  (c = true -> l <> [] -> rate <> 0) ->
  Forall (fun x => 0 <= rate * (x + (if c then 1 / rate else 0))) l ->
  windowedExceedanceProbability events (list_of_floats l) rate c
  = Ok (array_of_floats (exceedances rate (if c then 1 / rate else 0) l)).
Proof.
  intros Hr Hl. unfold windowedExceedanceProbability. rewrite call_121.
  rewrite (poissonProb_121_body_eval _ _ (map Fin l) rate c).
  - rewrite imap_exceedance_finite by assumption. reflexivity.
  - left. reflexivity.
  - intros Hc Hne. apply Hr; [assumption|]. intros ->. apply Hne. reflexivity.
Qed.

(** C2, the code at the failing input.  With no events, one window end at
    1.0, rate 1.0 and no correction the code returns [1 - CDF(1; 1)] (the
    loop index plus one is used as the count), whereas no event lies at or
    before the window end, so that the specified value is [1 - CDF(0; 1)];
    the two differ. *)
Theorem windowedExceedance_counts_by_index :
  windowedExceedanceProbability (list_of_floats []) (list_of_floats [1]) 1 false
    = Ok (array_of_floats [1 - poisson_cdf_R (1 * (1 + 0)) 1]) /\
  spec_windowedExceedanceProbability [] [1] 1 false
    = [1 - poisson_cdf_R (1 * (1 + 0)) 0] /\
  windowedExceedanceProbability (list_of_floats []) (list_of_floats [1]) 1 false
    <> Ok (array_of_floats (spec_windowedExceedanceProbability [] [1] 1 false)).
Proof.
  assert (Hev : windowedExceedanceProbability (list_of_floats []) (list_of_floats [1]) 1 false
                = Ok (array_of_floats [1 - poisson_cdf_R (1 * (1 + 0)) 1])).
  { rewrite (windowedExceedanceProbability_eval _ [1] 1 false).
    - reflexivity.
    - intros H; discriminate H.
    - repeat constructor. lra. }
  split; [exact Hev|]. split; [reflexivity|].
  rewrite Hev. unfold spec_windowedExceedanceProbability, count_at_or_before, array_of_floats.
  cbn [map List.filter length]. intros H. injection H as H.
  assert (Hmu : 0 < 1 * (1 + 0)) by lra.
  pose proof (poisson_cdf_R_lt_S _ 0 Hmu). lra.
Qed.

(** ** C3: the rebinding of poissonProb *)

Lemma module_globals_poissonProb :
  module_globals !! "poissonProb" = Some def_poissonProb_266.
Proof. reflexivity. Qed.

Lemma call_266_keyword a b c kw :
  call module_globals "poissonProb" [a; b; c] [("correctForSelection", kw)]
  = Err (TypeError (UnexpectedKeyword "correctForSelection")).
Proof. reflexivity. Qed.

Lemma call_266 n t l :
  call module_globals "poissonProb" [n; t; l] []
  = poissonProb_266_body (locals_266 n t l).
Proof. reflexivity. Qed.

Lemma poissonScore_rebound v rate :
  poissonScore module_globals v rate
  = Err (TypeError (UnexpectedKeyword "correctForSelection")).
Proof. unfold poissonScore. rewrite call_266_keyword. reflexivity. Qed.

Lemma poissonScoreBlame_iter_rebound v (l : list num) rate :
  is_seq v l -> l <> [] ->
  exists why, poissonScoreBlame_iter module_globals v rate 0 = Err (TypeError why).
Proof.
  intros Hs Hne. destruct l as [|x l']; [congruence|].
  unfold poissonScoreBlame_iter. destruct Hs as [-> | ->].
  - exists (UnsupportedOperand "*"). reflexivity.
  - exists (UnsupportedOperand "-").
    cbn [py_list list_pop length Nat.ltb Nat.leb py_slice_from drop]. bind_step.
    rewrite !call_266. unfold poissonProb_266_body.
    change (getvar (locals_266 ?n ?t ?l) "l") with (@Ok pyval l).
    change (getvar (locals_266 ?n ?t ?l) "t") with (@Ok pyval t).
    change (getvar (locals_266 ?n ?t ?l) "n") with (@Ok pyval n).
    bind_step.
    cbn [py_mul py_sub is_numpy orb np_of np_binop]. bind_step.
    unfold scipy_poisson_cdf. cbn [np_of np_binop].
    rewrite !length_map, Nat.eqb_refl. bind_step.
    cbn [py_div is_numpy orb np_of np_binop]. bind_step.
    reflexivity.
Qed.

Lemma poissonScoreBlame_rebound v (l : list num) rate :
  is_seq v l -> l <> [] ->
  exists why, poissonScoreBlame module_globals v rate = Err (TypeError why).
Proof.
  intros Hs Hne.
  destruct (poissonScoreBlame_iter_rebound v l rate Hs Hne) as [why Hwhy].
  exists why. unfold poissonScoreBlame, poissonScoreBlame_entries.
  rewrite (py_len_seq _ _ Hs). bind_step.
  destruct l as [|x l']; [congruence|].
  cbn [length Nat.eqb seq for_append]. rewrite Hwhy. reflexivity.
Qed.

(** C3.  Once the top-level definitions have run, [poissonProb] is bound to
    the function of line 266, which has no parameter [correctForSelection]:
    [poissonScore] raises TypeError for every non-empty event sequence and
    every rate, and [poissonScoreBlame] raises TypeError as well. *)
Theorem poissonScore_TypeError_after_rebinding (v : pyval) (l : list num) (rate : R) :
  is_seq v l -> l <> [] ->
  module_globals !! "poissonProb" = Some def_poissonProb_266 /\
  ("correctForSelection" ∉ fn_params def_poissonProb_266) /\
  poissonScore module_globals v rate
    = Err (TypeError (UnexpectedKeyword "correctForSelection")) /\
  exists why, poissonScoreBlame module_globals v rate = Err (TypeError why).
Proof.
  intros Hs Hne. split; [reflexivity|]. split.
  { cbn. intros H. repeat (apply elem_of_cons in H as [H|H]; [discriminate H|]).
    apply elem_of_nil in H. exact H. }
  split; [apply poissonScore_rebound|].
  apply (poissonScoreBlame_rebound v l rate Hs Hne).
Qed.

Lemma poissonScore_TypeError_after_rebinding_witness :
  module_globals !! "poissonProb" = Some def_poissonProb_266 /\
  ("correctForSelection" ∉ fn_params def_poissonProb_266) /\
  poissonScore module_globals (array_of_floats [1]) 3
    = Err (TypeError (UnexpectedKeyword "correctForSelection")) /\
  exists why, poissonScoreBlame module_globals (array_of_floats [1]) 3 = Err (TypeError why).
Proof.
  apply (poissonScore_TypeError_after_rebinding (array_of_floats [1]) [Fin 1] 3).
  - right. reflexivity.
  - discriminate.
Defined.

(** ** The Poisson CDF decreases in its mean *)

Lemma poisson_term_add a d k :
  poisson_term (a + d) k
  = sum_f_R0 (fun p => poisson_term a p * poisson_term d (k - p)) k.
Proof.
  unfold poisson_term at 1. rewrite binomial.
  unfold Rdiv. rewrite Rmult_comm, scal_sum. apply sum_eq. intros i Hi.
  unfold poisson_term, C.
  pose proof (INR_fact_neq_0 k). pose proof (INR_fact_neq_0 i).
  pose proof (INR_fact_neq_0 (k - i)).
  field. auto.
Qed.

Lemma poisson_sum_add_le a d k :
  0 <= a -> 0 <= d ->
  sum_f_R0 (poisson_term (a + d)) k
  <= sum_f_R0 (poisson_term a) k * sum_f_R0 (poisson_term d) k.
Proof.
  intros Ha Hd. destruct k as [|k].
  - unfold poisson_term. simpl. lra.
  - rewrite cauchy_finite by lia.
    rewrite (sum_eq (poisson_term (a + d))
               (fun k0 => sum_f_R0 (fun p => poisson_term a p * poisson_term d (k0 - p)) k0))
      by (intros i _; apply poisson_term_add).
    match goal with |- ?x <= ?x + ?y => assert (0 <= y); [|lra] end.
    apply cond_pos_sum. intros i. apply cond_pos_sum. intros j.
    apply Rmult_le_pos; apply poisson_term_nonneg; assumption.
Qed.

Lemma poisson_cdf_R_decreasing a b k :
  0 <= a -> a < b -> poisson_cdf_R b k < poisson_cdf_R a k.
Proof.
  intros Ha Hab. unfold poisson_cdf_R.
  assert (Hd : 0 < b - a) by lra.
  pose proof (poisson_sum_add_le a (b - a) k Ha (Rlt_le _ _ Hd)) as Hle.
  replace (a + (b - a)) with b in Hle by lra.
  pose proof (poisson_sum_lt_exp (b - a) k Hd) as Hlt.
  pose proof (poisson_sum_ge_1 a k Ha) as H1.
  pose proof (exp_pos (- b)) as Hb.
  replace (exp (- a)) with (exp (- b) * exp (b - a))
    by (rewrite <- exp_plus; f_equal; lra).
  rewrite Rmult_assoc. apply Rmult_lt_compat_l; [assumption|].
  eapply Rle_lt_trans; [exact Hle|].
  rewrite (Rmult_comm (exp (b - a))).
  apply Rmult_lt_compat_l; lra.
Qed.

(** ** C4, C5: the second poissonProb *)

Lemma probabilityOfAtLeastN_eval n t rate :
  (1 <= n)%Z -> 0 <= rate * t ->
  probabilityOfAtLeastN n t rate
  = Ok (VNum (Fin (poisson_cdf_R (rate * t) (Z.to_nat (n - 1))))).
Proof.
  intros Hn Hmu. unfold probabilityOfAtLeastN. rewrite call_266.
  unfold poissonProb_266_body.
  change (getvar (locals_266 ?n ?t ?l) "l") with (@Ok pyval l).
  change (getvar (locals_266 ?n ?t ?l) "t") with (@Ok pyval t).
  change (getvar (locals_266 ?n ?t ?l) "n") with (@Ok pyval n).
  bind_step. cbn [py_mul py_sub is_numpy orb py_scalar scalar_R]. bind_step.
  unfold scipy_poisson_cdf. cbn [np_of np_binop].
  replace (n - 1)%Z with (Z.of_nat (Z.to_nat (n - 1))) at 1 by lia.
  rewrite poisson_cdf_count by assumption. reflexivity.
Qed.

(** For a fixed count the returned value strictly decreases as [t] grows. *)
Lemma probabilityOfAtLeastN_decreasing_in_t n t1 t2 rate :
  (1 <= n)%Z -> 0 < rate -> 0 <= t1 -> t1 < t2 ->
  exists a b,
    probabilityOfAtLeastN n t1 rate = Ok (VNum (Fin a)) /\
    probabilityOfAtLeastN n t2 rate = Ok (VNum (Fin b)) /\
    b < a.
Proof.
  intros Hn Hr Ht1 Ht.
  assert (H1 : 0 <= rate * t1) by (apply Rmult_le_pos; lra).
  assert (H2 : rate * t1 < rate * t2) by (apply Rmult_lt_compat_l; lra).
  eexists. eexists. split; [|split].
  - apply probabilityOfAtLeastN_eval; assumption.
  - apply probabilityOfAtLeastN_eval; [assumption|lra].
  - apply poisson_cdf_R_decreasing; assumption.
Qed.

(** C4, the code at the failing input.  With n = 3 and rate = 5 the value
    returned for t = 0.1 is strictly greater than the one for t = 1, which in
    turn is strictly greater than the one for t = 10: the function returns
    [CDF(n - 1; rate * t)], the probability of fewer than [n] events, and
    that decreases in [t]. *)
Theorem probabilityOfAtLeastN_n3_rate5_decreases :
  exists a b c,
    probabilityOfAtLeastN 3 (1 / 10) 5 = Ok (VNum (Fin a)) /\
    probabilityOfAtLeastN 3 1 5 = Ok (VNum (Fin b)) /\
    probabilityOfAtLeastN 3 10 5 = Ok (VNum (Fin c)) /\
    a = poisson_cdf_R (5 * (1 / 10)) 2 /\
    c < b /\ b < a.
Proof.
  exists (poisson_cdf_R (5 * (1 / 10)) 2), (poisson_cdf_R (5 * 1) 2),
    (poisson_cdf_R (5 * 10) 2).
  split; [apply (probabilityOfAtLeastN_eval 3); [lia|lra]|].
  split; [apply (probabilityOfAtLeastN_eval 3); [lia|lra]|].
  split; [apply (probabilityOfAtLeastN_eval 3); [lia|lra]|].
  split; [reflexivity|].
  split; apply poisson_cdf_R_decreasing; lra.
Qed.

(** C5, the code beyond the failing input.  For every t > 0, rate > 0 and
    count n >= 1 the value returned for [n + 1] is strictly greater than the
    one returned for [n]: the function is strictly increasing in [n]. *)
Theorem probabilityOfAtLeastN_increases_in_n (n : Z) (t rate : R) :
  (1 <= n)%Z -> 0 < t -> 0 < rate ->
  exists a b,
    probabilityOfAtLeastN n t rate = Ok (VNum (Fin a)) /\
    probabilityOfAtLeastN (n + 1) t rate = Ok (VNum (Fin b)) /\
    a < b.
Proof.
  intros Hn Ht Hr.
  assert (Hmu : 0 < rate * t) by (apply Rmult_lt_0_compat; assumption).
  eexists. eexists. split; [|split].
  - apply probabilityOfAtLeastN_eval; [assumption|lra].
  - apply probabilityOfAtLeastN_eval; [lia|lra].
  - replace (Z.to_nat (n + 1 - 1)) with (S (Z.to_nat (n - 1))) by lia.
    apply poisson_cdf_R_lt_S. assumption.
Qed.

Lemma probabilityOfAtLeastN_increases_in_n_witness :
  exists a b,
    probabilityOfAtLeastN 1 1 1 = Ok (VNum (Fin a)) /\
    probabilityOfAtLeastN (1 + 1) 1 1 = Ok (VNum (Fin b)) /\
    a < b.
Proof.
  apply (probabilityOfAtLeastN_increases_in_n 1 1 1); [lia | lra | lra].
Defined.

(** ** C8: an additional early event *)

Lemma exceedance_lt_S r e i x :
  0 < r * (x + e) -> exceedance r e (S i) x < exceedance r e i x.
Proof.
  intros Hmu. unfold exceedance.
  pose proof (poisson_cdf_R_lt_S _ (S i) Hmu). lra.
Qed.

(** Putting one more event in front of a non-empty sequence strictly
    raises the score. *)
Lemma score_front_insert rate x0 (l : list R) :
  0 < rate -> 0 <= x0 -> Forall (fun x => 0 <= x) l -> l <> [] ->
  score_of_probabilities (exceedances rate (1 / rate) l) rate
  < score_of_probabilities (exceedances rate (1 / rate) (x0 :: l)) rate.
Proof.
  intros Hr Hx0 Hl Hne.
  pose proof (exceedances_pos rate l Hr Hl) as Hposb.
  assert (Hl' : Forall (fun x => 0 <= x) (x0 :: l)) by (constructor; assumption).
  pose proof (exceedances_pos rate (x0 :: l) Hr Hl') as Hposa.
  destruct (exceedances rate (1 / rate) l) as [|p ps] eqn:Hb.
  { destruct l; [congruence|]. unfold exceedances in Hb. rewrite imap_cons in Hb.
    discriminate Hb. }
  destruct (exceedances rate (1 / rate) (x0 :: l)) as [|q qs] eqn:Ha.
  { unfold exceedances in Ha. rewrite imap_cons in Ha. discriminate Ha. }
  unfold score_of_probabilities.
  apply score_lt; [assumption | apply Rmin_list_pos; assumption |].
  pose proof (Rmin_list_In p ps) as Hin.
  apply list_elem_of_In, list_elem_of_lookup_1 in Hin as [j Hj].
  rewrite <- Hb in Hj. unfold exceedances in Hj. rewrite list_lookup_imap in Hj.
  destruct (l !! j) as [x|] eqn:Hx; [|discriminate Hj].
  cbn in Hj. injection Hj as Hj. rewrite <- Hj.
  assert (Hxn : 0 <= x).
  { rewrite Forall_forall in Hl. apply Hl. eapply list_elem_of_lookup_2, Hx. }
  apply Rle_lt_trans with (exceedance rate (1 / rate) (S j) x).
  - apply Rmin_list_le. apply list_elem_of_In. rewrite <- Ha.
    apply (list_elem_of_lookup_2 _ (S j)).
    unfold exceedances. rewrite list_lookup_imap.
    change ((x0 :: l) !! S j) with (l !! j). rewrite Hx. reflexivity.
  - apply exceedance_lt_S, corrected_mean_pos; assumption.
Qed.

(** C8.  At rate 2 the score of [0.02, 0.1, 0.3, 0.5, 0.7] is strictly
    greater than the score of [0.1, 0.3, 0.5, 0.7]. *)
Theorem poissonScore_early_event_increases :
  exists s1 s2,
    poissonScore globals_after_121 (list_of_floats [0.1; 0.3; 0.5; 0.7]) 2
      = Ok (Fin s1) /\
    poissonScore globals_after_121 (list_of_floats [0.02; 0.1; 0.3; 0.5; 0.7]) 2
      = Ok (Fin s2) /\
    s1 < s2.
Proof.
  assert (Hl : Forall (fun x => 0 <= x) [0.1; 0.3; 0.5; 0.7])
    by (repeat constructor; lra).
  assert (H0 : 0 <= 0.02) by lra.
  eexists. eexists. split; [|split].
  - apply poissonScore_value; [left; reflexivity | lra | exact Hl].
  - apply poissonScore_value; [left; reflexivity | lra |].
    constructor; [exact H0 | exact Hl].
  - apply score_front_insert; [lra | exact H0 | exact Hl | discriminate].
Qed.

(** ** The grid of poissonIntegral *)

Lemma INR_grid : INR (grid_points - 1) = 999.
Proof. rewrite INR_IZR_INZ. reflexivity. Qed.

Lemma linspace_dt a b :
  nth 1 (linspace a b grid_points) 0 - nth 0 (linspace a b grid_points) 0
  = (b - a) / 999.
Proof.
  unfold linspace. rewrite INR_grid.
  change grid_points with (S (S 998)). cbn [seq map nth].
  change (INR 1) with 1. change (INR 0) with 0. lra.
Qed.

Lemma length_linspace a b n : length (linspace a b n) = n.
Proof. unfold linspace. rewrite length_map, length_seq. reflexivity. Qed.

Lemma linspace_ge a b n x : a <= b -> In x (linspace a b n) -> a <= x.
Proof.
  intros Hab Hin. unfold linspace in Hin. apply in_map_iff in Hin as [j [<- _]].
  assert (0 <= INR j * ((b - a) / INR (n - 1))); [|lra].
  apply Rmult_le_pos; [apply pos_INR|].
  destruct (n - 1)%nat eqn:E.
  - cbn. unfold Rdiv. rewrite Rinv_0. lra.
  - apply Rmult_le_pos; [lra|]. left. apply Rinv_0_lt_compat. apply lt_0_INR. lia.
Qed.

Lemma py_int_div_ok a dt : dt <> 0 -> py_int (ndiv (Fin a) (Fin dt)) = Ok (Rtrunc (a / dt)).
Proof. intros H. unfold ndiv. destruct (Req_dec_T dt 0); [contradiction|reflexivity]. Qed.

Lemma py_int_zero_div_zero : py_int (ndiv (Fin 0) (Fin 0)) = Err ValueError.
Proof.
  unfold ndiv. destruct (Req_dec_T 0 0) as [_|H]; [|exfalso; apply H; reflexivity].
  unfold Rsign. destruct (Rlt_dec 0 0); [lra|]. reflexivity.
Qed.

(** ** The loop of poissonIntegral *)

Lemma loop_skip rate tMin tMax dt xvals pre rest st cache :
  Forall (fun ev => ev < tMin) pre ->
  poissonIntegral_loop rate tMin tMax dt xvals (pre ++ rest) st cache
  = poissonIntegral_loop rate tMin tMax dt xvals rest st cache.
Proof.
  induction 1 as [|ev pre Hev _ IH]; [reflexivity|].
  cbn [app poissonIntegral_loop]. destruct (Rlt_dec ev tMin); [exact IH|contradiction].
Qed.

(** With a grid step different from zero no turn of the loop raises. *)
Lemma loop_no_error rate tMin tMax dt xvals events st cache :
  dt <> 0 ->
  exists st' cache',
    poissonIntegral_loop rate tMin tMax dt xvals events st cache = (Ok st', cache').
Proof.
  intros Hdt. revert st cache.
  induction events as [|ev rest IH]; intros st cache; [cbn; eauto|].
  cbn [poissonIntegral_loop]. destruct (Rlt_dec ev tMin); [apply IH|].
  rewrite !py_int_div_ok by assumption.
  match goal with |- context [if Req_dec_T ?e tMax then _ else _] =>
    destruct (Req_dec_T e tMax) end; [eauto|apply IH].
Qed.

(** With a grid step of zero the first event that is not skipped raises
    ValueError, from [int] applied to 0/0. *)
Lemma loop_zero_step rate tMin tMax xvals events st cache :
  t_last st = tMin -> Exists (fun ev => ~ ev < tMin) events ->
  poissonIntegral_loop rate tMin tMax 0 xvals events st cache = (Err ValueError, cache).
Proof.
  intros Ht Hex. induction events as [|ev rest IH].
  - apply Exists_nil in Hex. contradiction.
  - cbn [poissonIntegral_loop]. destruct (Rlt_dec ev tMin) as [Hlt|Hge].
    + apply IH. apply Exists_cons in Hex as [Hex|Hex]; [contradiction|exact Hex].
    + rewrite Ht. replace (tMin - tMin) with 0 by lra.
      rewrite py_int_zero_div_zero. reflexivity.
Qed.

Lemma poissonIntegral_no_error events rate tMin tMax cache :
  tMin <> tMax ->
  exists v cache', poissonIntegral events rate tMin tMax cache = (Ok v, cache').
Proof.
  intros Hne. unfold poissonIntegral. rewrite linspace_dt.
  destruct (loop_no_error rate tMin tMax ((tMax - tMin) / 999)
              (linspace tMin tMax grid_points) (sort_floats events ++ [tMax])
              {| tot := Fin 0; t_last := tMin; nev := 0 |} cache) as [st [c' H]].
  - intros H0. apply Hne. lra.
  - rewrite H. eauto.
Qed.

Lemma poissonIntegral_empty_window events rate t cache :
  poissonIntegral events rate t t cache = (Err ValueError, cache).
Proof.
  unfold poissonIntegral. rewrite linspace_dt.
  replace ((t - t) / 999) with 0 by lra.
  rewrite loop_zero_step; [reflexivity | reflexivity |].
  apply Exists_app. right. apply Exists_cons. left. lra.
Qed.

Lemma insert_sorted_Forall (P : R -> Prop) x l :
  P x -> Forall P l -> Forall P (insert_sorted x l).
Proof.
  intros Hx Hl. induction Hl as [|y l Hy Hl IH]; cbn [insert_sorted].
  - repeat constructor. exact Hx.
  - destruct (Rle_dec x y); repeat (constructor; try assumption).
Qed.

Lemma sort_floats_Forall (P : R -> Prop) l : Forall P l -> Forall P (sort_floats l).
Proof.
  induction 1 as [|x l Hx Hl IH]; cbn [sort_floats fold_right]; [constructor|].
  apply insert_sorted_Forall; assumption.
Qed.

(** A reversed window whose events all lie before [tMin]: every turn of the
    loop is skipped, the sentinel [tMax] included. *)
Lemma poissonIntegral_reversed_window events rate tMin tMax cache :
  tMax < tMin -> Forall (fun ev => ev < tMin) events ->
  poissonIntegral events rate tMin tMax cache = (Ok (Fin 0), cache).
Proof.
  intros Hw Hev. unfold poissonIntegral. rewrite linspace_dt.
  rewrite <- (app_nil_r (sort_floats events ++ [tMax])).
  rewrite loop_skip.
  - cbn [poissonIntegral_loop tot nmul]. do 2 f_equal. f_equal. lra.
  - apply Forall_app. split; [apply sort_floats_Forall; exact Hev|].
    repeat constructor. exact Hw.
Qed.

(** ** C10: the window bounds are not checked *)

(** C10 (as amended).  [poissonIntegral] has no check of its window.  For
    [tMin = tMax] every call ends in ValueError, raised by [int] on the nan
    that 0/0 gives; for [tMin > tMax] no call raises: a value is returned,
    and it is 0 when every event lies before [tMin]. *)
Theorem poissonIntegral_window_unchecked (events : list R) (rate tMin tMax : R)
    (cache : gmap nat (list num)) :
  (tMin = tMax ->
     poissonIntegral events rate tMin tMax cache = (Err ValueError, cache)) /\
  (tMax < tMin ->
     exists v cache', poissonIntegral events rate tMin tMax cache = (Ok v, cache')) /\
  (tMax < tMin -> Forall (fun ev => ev < tMin) events ->
     poissonIntegral events rate tMin tMax cache = (Ok (Fin 0), cache)).
Proof.
  split; [|split].
  - intros ->. apply poissonIntegral_empty_window.
  - intros H. apply poissonIntegral_no_error. lra.
  - apply poissonIntegral_reversed_window.
Qed.

Lemma poissonIntegral_window_unchecked_witness :
  poissonIntegral [0.5] 3 1 1 ∅ = (Err ValueError, ∅) /\
  (exists v cache', poissonIntegral [0.5] 3 2 1 ∅ = (Ok v, cache')) /\
  poissonIntegral [0.5] 3 2 1 ∅ = (Ok (Fin 0), ∅).
Proof.
  split; [|split].
  - apply (proj1 (poissonIntegral_window_unchecked [0.5] 3 1 1 ∅)). reflexivity.
  - apply (proj1 (proj2 (poissonIntegral_window_unchecked [0.5] 3 2 1 ∅))). lra.
  - apply (proj2 (proj2 (poissonIntegral_window_unchecked [0.5] 3 2 1 ∅))).
    + lra.
    + repeat constructor. lra.
Defined.

(** C10 as stated fails: with [tMin = 2 > tMax = 1] and no events the call
    returns 0 and raises nothing. *)
Lemma poissonIntegral_reversed_window_returns :
  poissonIntegral [] 1 2 1 ∅ = (Ok (Fin 0), ∅).
Proof. apply poissonIntegral_reversed_window; [lra | constructor]. Qed.

(** ** A window without events inside *)

Lemma cache_after_lookup cache rate xvals k :
  default [] (cache_after cache rate xvals k !! k) = cached_curve cache rate xvals k.
Proof.
  unfold cache_after, cached_curve. destruct (cache !! k) as [c|] eqn:E.
  - rewrite E. reflexivity.
  - rewrite lookup_insert_eq. reflexivity.
Qed.

Lemma loop_sentinel rate tMin tMax xvals cache :
  tMin < tMax ->
  poissonIntegral_loop rate tMin tMax ((tMax - tMin) / 999) xvals [tMax]
    {| tot := Fin 0; t_last := tMin; nev := 0 |} cache
  = (Ok {| tot := nadd (Fin 0)
                    (nsum (map (ndiv (Fin 1))
                             (py_slice (cached_curve cache rate xvals 0) 0 999)));
           t_last := tMax; nev := 1 |},
     cache_after cache rate xvals 0).
Proof.
  intros Hw. cbn [poissonIntegral_loop t_last nev tot].
  destruct (Rlt_dec tMax tMin); [lra|].
  destruct (Rlt_dec tMax tMax); [lra|].
  rewrite !py_int_div_ok by lra.
  replace ((tMin - tMin) / ((tMax - tMin) / 999)) with (IZR 0) by (field; lra).
  replace ((tMax - tMin) / ((tMax - tMin) / 999)) with (IZR 999) by (field; lra).
  rewrite !Rtrunc_IZR by lia.
  fold (cache_after cache rate xvals 0). rewrite cache_after_lookup.
  destruct (Req_dec_T tMax tMax); [reflexivity|contradiction].
Qed.

Lemma poissonIntegral_no_event_inside events rate tMin tMax cache :
  tMin < tMax -> Forall (fun ev => ev < tMin) events ->
  poissonIntegral events rate tMin tMax cache
  = (Ok (nmul (nadd (Fin 0)
                 (nsum (map (ndiv (Fin 1))
                          (py_slice (cached_curve cache rate
                                       (linspace tMin tMax grid_points) 0) 0 999))))
           (Fin ((tMax - tMin) / 999))),
     cache_after cache rate (linspace tMin tMax grid_points) 0).
Proof.
  intros Hw Hev. unfold poissonIntegral. rewrite linspace_dt.
  rewrite loop_skip by (apply sort_floats_Forall; exact Hev).
  rewrite loop_sentinel by assumption. reflexivity.
Qed.

Lemma py_slice_prefix {A} (l : list A) (n : nat) :
  (n <= length l)%nat -> py_slice l 0 (Z.of_nat n) = take n l.
Proof.
  intros Hn. unfold py_slice.
  change (0 <? 0)%Z with false. cbn iota.
  assert (H0 : (Z.of_nat n <? 0)%Z = false) by (apply Z.ltb_ge; lia).
  rewrite H0.
  replace (Z.min 0 (Z.of_nat (length l))) with 0%Z by lia.
  replace (Z.min (Z.of_nat n) (Z.of_nat (length l))) with (Z.of_nat n) by lia.
  rewrite Z.sub_0_r, Nat2Z.id. reflexivity.
Qed.

Lemma nsum_Fin_from (l : list R) a :
  fold_left nadd (map Fin l) (Fin a) = Fin (fold_left Rplus l a).
Proof.
  revert a. induction l as [|x l IH]; intros a; [reflexivity|].
  cbn [map fold_left nadd]. apply IH.
Qed.

Lemma nsum_Fin (l : list R) : nsum (map Fin l) = Fin (Rsum l).
Proof. apply nsum_Fin_from. Qed.

Lemma curve_point_finite rate k x :
  0 < rate * x ->
  ndiv (Fin 1) (nsub (Fin 1) (poisson_cdf (Fin (rate * x)) (Fin (INR k))))
  = Fin (improbability rate k x).
Proof.
  intros Hmu. rewrite INR_IZR_INZ, poisson_cdf_count by lra.
  cbn [nsub nopp nadd]. unfold ndiv.
  pose proof (poisson_cdf_R_lt_1 _ k Hmu).
  destruct (Req_dec_T (1 + - poisson_cdf_R (rate * x) k) 0); [lra|].
  reflexivity.
Qed.

Lemma curve_segment_finite rate k (xs : list R) :
  Forall (fun x => 0 < rate * x) xs ->
  map (ndiv (Fin 1)) (build_curve rate xs k) = map Fin (map (improbability rate k) xs).
Proof.
  intros H. unfold build_curve. rewrite !map_map.
  apply map_ext_in. intros x Hx. apply curve_point_finite.
  rewrite Forall_forall in H. apply H, list_elem_of_In, Hx.
Qed.

Lemma build_curve_take rate k xs n :
  take n (build_curve rate xs k) = build_curve rate (take n xs) k.
Proof. unfold build_curve. symmetry. apply fmap_take. Qed.

Lemma length_build_curve rate k xs : length (build_curve rate xs k) = length xs.
Proof. unfold build_curve. apply length_map. Qed.

Lemma grid_positive rate tMin tMax :
  0 < rate -> 0 < tMin -> tMin < tMax ->
  Forall (fun x => 0 < rate * x) (take 999 (linspace tMin tMax grid_points)).
Proof.
  intros Hr Hm Hw. rewrite Forall_forall. intros x Hx.
  apply Rmult_lt_0_compat; [assumption|].
  apply Rlt_le_trans with tMin; [assumption|].
  apply (linspace_ge tMin tMax grid_points); [lra|].
  apply list_elem_of_In. eapply subseteq_take, Hx.
Qed.

Lemma segment_sum_value cr tMin tMax :
  0 < cr -> 0 < tMin -> tMin < tMax ->
  nsum (map (ndiv (Fin 1))
          (py_slice (build_curve cr (linspace tMin tMax grid_points) 0) 0 999))
  = Fin (Rsum (map (improbability cr 0) (take 999 (linspace tMin tMax grid_points)))).
Proof.
  intros Hr Hm Hw. change 999%Z with (Z.of_nat 999).
  rewrite py_slice_prefix
    by (rewrite length_build_curve, length_linspace; unfold grid_points; lia).
  rewrite build_curve_take, curve_segment_finite by (apply grid_positive; assumption).
  apply nsum_Fin.
Qed.

(** No event inside the window and no curve for count 0 in the cache. *)
Lemma poissonIntegral_fresh events rate tMin tMax cache :
  0 < rate -> 0 < tMin -> tMin < tMax ->
  Forall (fun ev => ev < tMin) events -> cache !! 0%nat = None ->
  poissonIntegral events rate tMin tMax cache
  = (Ok (Fin (integral_no_events rate tMin tMax)),
     <[0%nat := build_curve rate (linspace tMin tMax grid_points) 0]> cache).
Proof.
  intros Hr Hm Hw Hev Hc.
  rewrite poissonIntegral_no_event_inside by assumption.
  unfold cached_curve, cache_after. rewrite Hc.
  rewrite segment_sum_value by assumption. reflexivity.
Qed.

(** No event inside the window and the curve of rate [cr] for count 0 in the
    cache: the curve is used whatever [rate] is. *)
Lemma poissonIntegral_stale events rate cr tMin tMax cache :
  0 < cr -> 0 < tMin -> tMin < tMax ->
  Forall (fun ev => ev < tMin) events ->
  cache !! 0%nat = Some (build_curve cr (linspace tMin tMax grid_points) 0) ->
  poissonIntegral events rate tMin tMax cache
  = (Ok (Fin (integral_no_events cr tMin tMax)), cache).
Proof.
  intros Hr Hm Hw Hev Hc.
  rewrite poissonIntegral_no_event_inside by assumption.
  unfold cached_curve, cache_after. rewrite Hc.
  rewrite segment_sum_value by assumption. reflexivity.
Qed.

Lemma fold_left_Rplus_lt (f g : R -> R) (l : list R) a b :
  a <= b -> l <> [] -> (forall x, In x l -> f x < g x) ->
  fold_left Rplus (map f l) a < fold_left Rplus (map g l) b.
Proof.
  revert a b. induction l as [|x l IH]; intros a b Hab Hne Hfg; [congruence|].
  cbn [map fold_left]. pose proof (Hfg x (or_introl eq_refl)) as Hx.
  destruct l as [|y l'].
  - cbn. lra.
  - apply IH; [lra | discriminate |]. intros z Hz. apply Hfg. right. exact Hz.
Qed.

Lemma improbability_pos rate k x : 0 < rate * x -> 0 < improbability rate k x.
Proof.
  intros Hmu. unfold improbability.
  pose proof (poisson_cdf_R_lt_1 _ k Hmu).
  apply Rdiv_lt_0_compat; lra.
Qed.

Lemma improbability_decreasing_in_rate r1 r2 k x :
  0 < r1 -> r1 < r2 -> 0 < x -> improbability r2 k x < improbability r1 k x.
Proof.
  intros H1 H12 Hx. unfold improbability.
  assert (Hmu1 : 0 < r1 * x) by (apply Rmult_lt_0_compat; assumption).
  assert (Hmu : r1 * x < r2 * x) by (apply Rmult_lt_compat_r; assumption).
  pose proof (poisson_cdf_R_decreasing (r1 * x) (r2 * x) k (Rlt_le _ _ Hmu1) Hmu).
  pose proof (poisson_cdf_R_lt_1 _ k Hmu1).
  unfold Rdiv. rewrite !Rmult_1_l. apply Rinv_lt_contravar; [|lra].
  apply Rmult_lt_0_compat; lra.
Qed.

Lemma integral_no_events_decreasing_in_rate r1 r2 tMin tMax :
  0 < r1 -> r1 < r2 -> 0 < tMin -> tMin < tMax ->
  integral_no_events r2 tMin tMax < integral_no_events r1 tMin tMax.
Proof.
  intros H1 H12 Hm Hw. unfold integral_no_events, Rsum.
  apply Rmult_lt_compat_r; [lra|]. apply Rplus_lt_compat_l.
  apply fold_left_Rplus_lt; [lra | |].
  - unfold linspace, grid_points. change 1000%nat with (S 999). cbn [seq map take].
    discriminate.
  - intros x Hx. apply improbability_decreasing_in_rate; [assumption..|].
    apply Rlt_le_trans with tMin; [assumption|].
    apply (linspace_ge tMin tMax grid_points); [lra|].
    apply list_elem_of_In. eapply subseteq_take, list_elem_of_In, Hx.
Qed.

(** ** C6: the cache is keyed by the event count only *)

(** C6.  There are two successive calls of [poissonIntegral] that share the
    cache and differ in the rate only (no events, window [1, 2], rate 1 and
    then rate 2, the cache empty at first) such that the second call returns
    the value of the first call, which differs from what the same call
    returns on an empty cache: the curve stored under count 0 at rate 1 is
    used again at rate 2. *)
Theorem poissonIntegral_cache_ignores_rate :
  exists (events : list R) (tMin tMax rate1 rate2 : R) (v1 v2 v2' : num)
         (c1 c2 c2' : gmap nat (list num)),
    rate1 <> rate2 /\
    poissonIntegral events rate1 tMin tMax ∅ = (Ok v1, c1) /\
    poissonIntegral events rate2 tMin tMax c1 = (Ok v2, c2) /\
    poissonIntegral events rate2 tMin tMax ∅ = (Ok v2', c2') /\
    v2 = v1 /\ v2 <> v2' /\
    c1 !! 0%nat = Some (build_curve rate1 (linspace tMin tMax grid_points) 0) /\
    c2 = c1.
Proof.
  exists [], 1, 2, 1, 2.
  exists (Fin (integral_no_events 1 1 2)), (Fin (integral_no_events 1 1 2)),
    (Fin (integral_no_events 2 1 2)).
  exists (<[0%nat := build_curve 1 (linspace 1 2 grid_points) 0]> ∅),
    (<[0%nat := build_curve 1 (linspace 1 2 grid_points) 0]> ∅),
    (<[0%nat := build_curve 2 (linspace 1 2 grid_points) 0]> ∅).
  split; [lra|].
  split; [apply poissonIntegral_fresh; try lra; [constructor | reflexivity]|].
  split; [apply poissonIntegral_stale; try lra; [constructor | apply lookup_insert_eq]|].
  split; [apply poissonIntegral_fresh; try lra; [constructor | reflexivity]|].
  split; [reflexivity|].
  split; [|split; [apply lookup_insert_eq | reflexivity]].
  intros H. injection H as H.
  pose proof (integral_no_events_decreasing_in_rate 1 2 1 2). lra.
Qed.

(** ** C7: the rate is not checked *)

Lemma iter_121_zero_rate events xvals (l : list num) i x :
  is_seq xvals l -> l !! i = Some x ->
  poissonProb_121_iter (locals_121 events xvals (VFloat 0) (VBool true)) i
  = Err ZeroDivisionError.
Proof.
  intros Hs Hx. unfold poissonProb_121_iter.
  rewrite getvar_121_xvals. bind_step.
  rewrite (py_index_seq _ _ _ _ Hs Hx). bind_step.
  rewrite getvar_121_cfs. bind_step. rewrite getvar_121_rate. bind_step.
  unfold py_div. cbn [is_numpy orb py_scalar scalar_R].
  destruct (Req_dec_T 0 0) as [_|H]; [reflexivity|exfalso; apply H; reflexivity].
Qed.

Lemma poissonScore_zero_rate v (l : list num) :
  is_seq v l -> l <> [] ->
  poissonScore globals_after_121 v 0 = Err ZeroDivisionError.
Proof.
  intros Hs Hne. destruct l as [|x l']; [congruence|].
  unfold poissonScore. rewrite call_121_kw. unfold poissonProb_121_body.
  rewrite getvar_121_xvals. bind_step. rewrite (py_len_seq _ _ Hs). bind_step.
  cbn [length seq for_append].
  rewrite (iter_121_zero_rate v v (x :: l') 0 x Hs eq_refl). reflexivity.
Qed.

Lemma poissonScore_negative_rate v (l : list num) rate :
  is_seq v l -> l <> [] -> rate < 0 ->
  poissonScore globals_after_121 v rate = Err ValueError.
Proof.
  intros Hs Hne Hr. destruct l as [|x l']; [congruence|].
  unfold poissonScore. rewrite call_121_kw.
  rewrite (poissonProb_121_body_eval _ _ _ rate true Hs) by (intros _ _; lra).
  bind_step. rewrite imap_cons. cbn [py_len length Nat.eqb np_min]. bind_step.
  unfold py_pow_half. destruct (Rlt_dec rate 0); [reflexivity|lra].
Qed.

Lemma fold_left_nadd_nan (l : list num) a :
  l <> [] -> Forall (fun x => x = NaN) l -> fold_left nadd l a = NaN.
Proof.
  intros Hne Hl. revert a. induction Hl as [|x l Hx Hl IH]; intros a; [congruence|].
  subst x. cbn [fold_left]. replace (nadd a NaN) with NaN by (destruct a; reflexivity).
  destruct l as [|y l']; [reflexivity|]. apply IH. discriminate.
Qed.

(** A negative rate with no event inside a positive window: every point of
    the curve is nan and so is the value returned. *)
Lemma poissonIntegral_negative_rate_curve events rate tMin tMax cache :
  rate < 0 -> 0 < tMin -> tMin < tMax ->
  Forall (fun ev => ev < tMin) events ->
  cached_curve cache rate (linspace tMin tMax grid_points) 0
    = build_curve rate (linspace tMin tMax grid_points) 0 ->
  poissonIntegral events rate tMin tMax cache
  = (Ok NaN, cache_after cache rate (linspace tMin tMax grid_points) 0).
Proof.
  intros Hr Hm Hw Hev Hc.
  rewrite poissonIntegral_no_event_inside by assumption.
  rewrite Hc.
  change 999%Z with (Z.of_nat 999).
  rewrite py_slice_prefix
    by (rewrite length_build_curve, length_linspace; unfold grid_points; lia).
  rewrite build_curve_take. unfold nsum.
  rewrite fold_left_nadd_nan; [reflexivity | |].
  - unfold build_curve, linspace, grid_points. change 1000%nat with (S 999).
    cbn [seq map take]. discriminate.
  - unfold build_curve. rewrite map_map. apply Forall_map. rewrite Forall_forall.
    intros x Hx. cbn beta.
    assert (Hx0 : tMin <= x).
    { apply (linspace_ge tMin tMax grid_points); [lra|].
      apply list_elem_of_In. eapply subseteq_take, Hx. }
    rewrite poisson_cdf_invalid; [reflexivity|].
    assert (0 < (- rate) * x) by (apply Rmult_lt_0_compat; lra). lra.
Qed.

Lemma poissonIntegral_negative_rate events rate tMin tMax cache :
  rate < 0 -> 0 < tMin -> tMin < tMax ->
  Forall (fun ev => ev < tMin) events -> cache !! 0%nat = None ->
  exists cache', poissonIntegral events rate tMin tMax cache = (Ok NaN, cache').
Proof.
  intros Hr Hm Hw Hev Hc. eexists.
  apply poissonIntegral_negative_rate_curve; try assumption.
  unfold cached_curve. rewrite Hc. reflexivity.
Qed.

(** C7 (as amended).  Neither function checks the rate.  For a rate <= 0,
    [poissonScore] returns 1.0 on the empty sequence; on a non-empty sequence
    it stops with the exception of the arithmetic itself, ZeroDivisionError
    from [1./rate] at rate 0 and ValueError from [rate ** 0.5] below 0.
    [poissonIntegral] raises nothing on a window with [tMin < tMax], whatever
    the rate: it returns a value, and that value is nan for a negative rate
    when the window is positive, no event lies inside it and the cache has
    no curve for count 0. *)
Theorem rate_unchecked (v : pyval) (l : list num) (events : list R)
    (rate tMin tMax : R) (cache : gmap nat (list num)) :
  rate <= 0 -> is_seq v l -> tMin < tMax ->
  (l = [] -> poissonScore globals_after_121 v rate = Ok (Fin 1)) /\
  (l <> [] -> rate = 0 -> poissonScore globals_after_121 v rate = Err ZeroDivisionError) /\
  (l <> [] -> rate < 0 -> poissonScore globals_after_121 v rate = Err ValueError) /\
  (exists x cache', poissonIntegral events rate tMin tMax cache = (Ok x, cache')) /\
  (rate < 0 -> 0 < tMin -> Forall (fun ev => ev < tMin) events -> cache !! 0%nat = None ->
   exists cache', poissonIntegral events rate tMin tMax cache = (Ok NaN, cache')).
Proof.
  intros Hr Hs Hw. split; [|split; [|split; [|split]]].
  - intros ->. apply poissonScore_empty. exact Hs.
  - intros Hne ->. apply (poissonScore_zero_rate v l Hs Hne).
  - intros Hne Hneg. apply (poissonScore_negative_rate v l rate Hs Hne Hneg).
  - apply poissonIntegral_no_error. lra.
  - intros Hneg Hm Hev Hc. apply poissonIntegral_negative_rate; assumption.
Qed.

Lemma rate_unchecked_witness :
  poissonScore globals_after_121 (list_of_floats []) (-1) = Ok (Fin 1) /\
  poissonScore globals_after_121 (list_of_floats [1]) 0 = Err ZeroDivisionError /\
  poissonScore globals_after_121 (list_of_floats [1]) (-1) = Err ValueError /\
  (exists x cache', poissonIntegral [] (-1) 1 2 ∅ = (Ok x, cache')) /\
  (exists cache', poissonIntegral [] (-1) 1 2 ∅ = (Ok NaN, cache')).
Proof.
  assert (Hs0 : is_seq (list_of_floats []) []) by (left; reflexivity).
  assert (Hs1 : is_seq (list_of_floats [1]) [Fin 1]) by (left; reflexivity).
  assert (Hw : 1 < 2) by lra.
  assert (Hn : -1 <= 0) by lra.
  assert (Hz : 0 <= 0) by lra.
  split; [|split; [|split; [|split]]].
  - apply (proj1 (rate_unchecked _ [] [] (-1) 1 2 ∅ Hn Hs0 Hw)). reflexivity.
  - apply (proj1 (proj2 (rate_unchecked _ [Fin 1] [] 0 1 2 ∅ Hz Hs1 Hw)));
      [discriminate | reflexivity].
  - apply (proj1 (proj2 (proj2 (rate_unchecked _ [Fin 1] [] (-1) 1 2 ∅ Hn Hs1 Hw))));
      [discriminate | lra].
  - apply (proj1 (proj2 (proj2 (proj2 (rate_unchecked _ [] [] (-1) 1 2 ∅ Hn Hs0 Hw))))).
  - apply (proj2 (proj2 (proj2 (proj2 (rate_unchecked _ [] [] (-1) 1 2 ∅ Hn Hs0 Hw)))));
      [lra | lra | constructor | reflexivity].
Defined.

(** C7 as stated fails: with rate -1 and no events [poissonScore] returns
    1.0 and raises nothing. *)
Lemma poissonScore_negative_rate_returns :
  poissonScore globals_after_121 (list_of_floats []) (-1) = Ok (Fin 1).
Proof. apply poissonScore_empty. left. reflexivity. Qed.

(** ** C9: the assertion at the end of the blame functions *)

Lemma existsb_isnan_false (pp : list num) :
  existsb isnan pp = false -> Forall (fun x => isnan x = false) pp.
Proof.
  induction pp as [|x pp IH]; intros H; [constructor|].
  cbn [existsb] in H. apply orb_false_iff in H as [Hx Hpp].
  constructor; [exact Hx | apply IH, Hpp].
Qed.

Lemma existsb_isnan_true (pp : list num) :
  Exists (fun x => isnan x = true) pp -> existsb isnan pp = true.
Proof.
  induction 1 as [x pp Hx | x pp _ IH]; cbn [existsb].
  - rewrite Hx. reflexivity.
  - rewrite IH. apply orb_true_r.
Qed.

Lemma poissonScoreBlame_no_nan g v rate pp :
  poissonScoreBlame g v rate = Ok pp -> Forall (fun x => isnan x = false) pp.
Proof.
  unfold poissonScoreBlame. destruct (py_len v) as [n|e]; [|discriminate].
  bind_step. destruct (n =? 0)%nat.
  - intros H. injection H as <-. constructor.
  - destruct (poissonScoreBlame_entries g v rate) as [qq|e]; [|discriminate].
    bind_step. destruct (existsb isnan qq) eqn:E; [discriminate|].
    intros H. injection H as <-. apply existsb_isnan_false, E.
Qed.

Lemma poissonScoreBlame_nan_aborts g v (l : list num) rate pp :
  is_seq v l -> l <> [] ->
  poissonScoreBlame_entries g v rate = Ok pp ->
  Exists (fun x => isnan x = true) pp ->
  poissonScoreBlame g v rate = Err AssertionError.
Proof.
  intros Hs Hne Hpp Hnan. unfold poissonScoreBlame.
  rewrite (py_len_seq _ _ Hs). bind_step.
  destruct l as [|x l']; [congruence|]. cbn [length Nat.eqb].
  rewrite Hpp. bind_step. rewrite (existsb_isnan_true pp Hnan). reflexivity.
Qed.

Lemma poissonIntegralBlame_no_nan ev rate xMin xMax cache pp c :
  poissonIntegralBlame ev rate xMin xMax cache = (Ok pp, c) ->
  Forall (fun x => isnan x = false) pp.
Proof.
  unfold poissonIntegralBlame.
  destruct (poissonIntegralBlame_entries ev rate xMin xMax cache) as [[qq|e] c'];
    [|discriminate].
  destruct (existsb isnan qq) eqn:E; [discriminate|].
  intros H. injection H as <- _. apply existsb_isnan_false, E.
Qed.

Lemma poissonIntegralBlame_nan_aborts ev rate xMin xMax cache pp c :
  poissonIntegralBlame_entries ev rate xMin xMax cache = (Ok pp, c) ->
  Exists (fun x => isnan x = true) pp ->
  poissonIntegralBlame ev rate xMin xMax cache = (Err AssertionError, c).
Proof.
  intros Hpp Hnan. unfold poissonIntegralBlame. rewrite Hpp.
  rewrite (existsb_isnan_true pp Hnan). reflexivity.
Qed.

(** *** The score blame under the first poissonProb is all ones *)

Lemma ndiv_self x : finite_nonzero x -> ndiv x x = Fin 1.
Proof.
  intros [r [-> Hr]]. unfold ndiv. destruct (Req_dec_T r 0); [contradiction|].
  f_equal. field. exact Hr.
Qed.

Lemma zip_with_ndiv_self (B : list num) :
  Forall finite_nonzero B -> zip_with ndiv B B = map (fun _ => Fin 1) B.
Proof.
  induction 1 as [|x B Hx _ IH]; [reflexivity|].
  cbn [zip_with map]. rewrite ndiv_self, IH by assumption. reflexivity.
Qed.

Lemma nmax_ones {A} (x : A) (B : list A) : nmax (map (fun _ => Fin 1) (x :: B)) = Fin 1.
Proof.
  unfold nmax. cbn [map]. induction B as [|y B IH]; [reflexivity|].
  cbn [map fold_left]. unfold nmax2 at 2, nltb.
  destruct (Rlt_dec 1 1); [lra|]. exact IH.
Qed.

Lemma reciprocal_finite_nonzero (D : list R) :
  Forall (fun p => 0 < p) D ->
  Forall finite_nonzero (map (ndiv (Fin 1)) (map Fin D)).
Proof.
  intros H. rewrite map_map. apply Forall_map. eapply Forall_impl; [exact H|].
  intros p Hp. cbn beta. exists (1 / p). unfold ndiv.
  destruct (Req_dec_T p 0); [lra|]. split; [reflexivity|].
  apply Rgt_not_eq. apply Rdiv_lt_0_compat; lra.
Qed.

Lemma py_slice_from_seq v (l : list R) i :
  is_seq v (map Fin l) ->
  exists t, py_slice_from v i = Ok t /\ is_seq t (map Fin (drop i l)).
Proof.
  intros [-> | ->]; cbn [py_slice_from]; eexists; (split; [reflexivity|]).
  - left. f_equal. symmetry. apply fmap_drop.
  - right. f_equal. symmetry. apply fmap_drop.
Qed.

Lemma uncorrected_probabilities events t (D : list R) rate :
  is_seq t (map Fin D) -> 0 < rate -> Forall (fun x => 0 < x) D ->
  call globals_after_121 "poissonProb" [events; t; VFloat rate] []
  = Ok (VArray (map Fin (exceedances rate 0 D))).
Proof.
  intros Ht Hr HD. rewrite call_121_default.
  rewrite (poissonProb_121_body_eval _ _ _ rate false Ht) by discriminate.
  rewrite imap_exceedance_finite; [reflexivity|].
  eapply Forall_impl; [exact HD|]. intros x Hx. cbn beta.
  apply Rmult_le_pos; lra.
Qed.

Lemma exceedances_uncorrected_pos rate (D : list R) :
  0 < rate -> Forall (fun x => 0 < x) D ->
  Forall (fun p => 0 < p) (exceedances rate 0 D).
Proof.
  intros Hr HD. rewrite Forall_forall. intros p Hp.
  apply list_elem_of_lookup_1 in Hp as [i Hi].
  unfold exceedances in Hi. rewrite list_lookup_imap in Hi.
  destruct (D !! i) as [x|] eqn:Hx; [|discriminate].
  cbn in Hi. injection Hi as <-.
  apply exceedance_pos. rewrite Forall_forall in HD.
  pose proof (HD x (list_elem_of_lookup_2 _ _ _ Hx)).
  apply Rmult_lt_0_compat; lra.
Qed.

Lemma poissonScoreBlame_iter_one v (l : list R) rate i :
  is_seq v (map Fin l) -> 0 < rate -> Forall (fun x => 0 < x) l ->
  (i < length l)%nat ->
  poissonScoreBlame_iter globals_after_121 v rate i = Ok (Fin 1).
Proof.
  intros Hs Hr Hl Hi. unfold poissonScoreBlame_iter.
  assert (Hlist : py_list v = Ok (map Fin l)) by (destruct Hs as [-> | ->]; reflexivity).
  rewrite Hlist. bind_step.
  unfold list_pop. rewrite length_map.
  apply Nat.ltb_lt in Hi as Hi'. rewrite Hi'. bind_step.
  destruct (py_slice_from_seq v l i Hs) as [t [Ht Hts]]. rewrite Ht. bind_step.
  assert (HD : Forall (fun x => 0 < x) (drop i l)) by (apply Forall_drop; exact Hl).
  rewrite !(uncorrected_probabilities _ t (drop i l) rate Hts Hr HD). bind_step.
  cbn [py_div is_numpy orb np_of np_binop]. bind_step.
  cbn [py_div is_numpy orb np_of np_binop]. rewrite Nat.eqb_refl. bind_step.
  pose proof (exceedances_uncorrected_pos rate (drop i l) Hr HD) as Hpos.
  rewrite zip_with_ndiv_self by (apply reciprocal_finite_nonzero; exact Hpos).
  rewrite !map_map.
  assert (Hne : exceedances rate 0 (drop i l) <> []).
  { intros E. apply (f_equal length) in E. unfold exceedances in E.
    rewrite length_imap, length_drop in E. cbn in E. lia. }
  destruct (exceedances rate 0 (drop i l)) as [|p ps]; [congruence|].
  cbn [map np_max].
  change (Fin 1 :: map (fun _ : R => Fin 1) ps) with (map (fun _ : R => Fin 1) (p :: ps)).
  rewrite nmax_ones. reflexivity.
Qed.

Lemma for_append_const {A} (body : nat -> result A) (y : A) (idx : list nat) :
  (forall i, In i idx -> body i = Ok y) ->
  for_append body idx = Ok (map (fun _ => y) idx).
Proof.
  induction idx as [|i idx IH]; intros H; [reflexivity|].
  cbn [for_append map]. rewrite (H i (or_introl eq_refl)). bind_step.
  rewrite IH by (intros j Hj; apply H; right; exact Hj). reflexivity.
Qed.

(** Under the first [poissonProb] every entry of the score blame is 1, for
    any positive rate and positive event times: both arrays that are divided
    come from the same window ends. *)
Lemma poissonScoreBlame_all_ones v (l : list R) rate :
  is_seq v (map Fin l) -> 0 < rate -> Forall (fun x => 0 < x) l ->
  poissonScoreBlame globals_after_121 v rate
  = Ok (map (fun _ => Fin 1) (seq 0 (length l))).
Proof.
  intros Hs Hr Hl. unfold poissonScoreBlame, poissonScoreBlame_entries.
  rewrite (py_len_seq _ _ Hs), length_map. bind_step.
  destruct (length l =? 0)%nat eqn:E.
  - apply Nat.eqb_eq in E. rewrite E. reflexivity.
  - rewrite (for_append_const _ (Fin 1)).
    + bind_step.
      replace (existsb isnan (map (fun _ => Fin 1) (seq 0 (length l)))) with false;
        [reflexivity|].
      generalize (seq 0 (length l)). intros idx.
      induction idx as [|j idx IH]; [reflexivity|]. cbn [map existsb isnan orb]. exact IH.
    + intros i Hin. apply in_seq in Hin.
      apply (poissonScoreBlame_iter_one v l rate i Hs Hr Hl). lia.
Qed.

(** *** Concrete runs of the blame functions *)

Lemma fold_left_Rplus_pos (f : R -> R) (l : list R) a :
  l <> [] -> (forall x, In x l -> 0 < f x) -> a < fold_left Rplus (map f l) a.
Proof.
  revert a. induction l as [|x l IH]; intros a Hne Hf; [congruence|].
  cbn [map fold_left]. pose proof (Hf x (or_introl eq_refl)) as Hx.
  destruct l as [|y l'].
  - cbn. lra.
  - apply Rlt_trans with (a + f x); [lra|].
    apply IH; [discriminate|]. intros z Hz. apply Hf. right. exact Hz.
Qed.

Lemma integral_no_events_pos rate tMin tMax :
  0 < rate -> 0 < tMin -> tMin < tMax -> 0 < integral_no_events rate tMin tMax.
Proof.
  intros Hr Hm Hw. unfold integral_no_events, Rsum.
  apply Rmult_lt_0_compat; [|lra].
  match goal with |- 0 < 0 + ?s => assert (0 < s); [|lra] end.
  apply fold_left_Rplus_pos.
  - unfold linspace, grid_points. change 1000%nat with (S 999). cbn [seq map take].
    discriminate.
  - intros x Hx. apply improbability_pos.
    pose proof (grid_positive rate tMin tMax Hr Hm Hw) as Hg.
    rewrite Forall_forall in Hg. apply Hg, list_elem_of_In, Hx.
Qed.

(** One event before the window [1, 2] at rate 1: both integrals are the
    same and the blame is 1. *)
Lemma poissonIntegralBlame_run :
  poissonIntegralBlame [0.5] 1 1 2 ∅
  = (Ok [Fin 1], <[0%nat := build_curve 1 (linspace 1 2 grid_points) 0]> ∅).
Proof.
  unfold poissonIntegralBlame, poissonIntegralBlame_entries.
  cbn [length seq poissonIntegralBlame_loop list_pop Nat.ltb Nat.leb].
  rewrite (poissonIntegral_fresh [0.5] 1 1 2 ∅);
    [| lra | lra | lra | repeat constructor; lra | reflexivity].
  change (delete 0%nat [0.5]) with (@nil R).
  rewrite (poissonIntegral_stale [] 1 1 1 2);
    [| lra | lra | lra | constructor | apply lookup_insert_eq].
  rewrite ndiv_self.
  - reflexivity.
  - eexists. split; [reflexivity|]. apply Rgt_not_eq.
    apply integral_no_events_pos; lra.
Qed.

(** The same event at rate -1: both integrals are nan, so is their ratio. *)
Lemma poissonIntegralBlame_entries_nan :
  poissonIntegralBlame_entries [0.5] (-1) 1 2 ∅
  = (Ok [NaN], cache_after ∅ (-1) (linspace 1 2 grid_points) 0).
Proof.
  unfold poissonIntegralBlame_entries.
  cbn [length seq poissonIntegralBlame_loop list_pop Nat.ltb Nat.leb].
  rewrite (poissonIntegral_negative_rate_curve [0.5] (-1) 1 2 ∅);
    [| lra | lra | lra | repeat constructor; lra | reflexivity].
  change (delete 0%nat [0.5]) with (@nil R).
  rewrite (poissonIntegral_negative_rate_curve [] (-1) 1 2);
    [| lra | lra | lra | constructor | reflexivity].
  reflexivity.
Qed.

Lemma poisson_cdf_R_zero_mean k : poisson_cdf_R 0 k = 1.
Proof.
  unfold poisson_cdf_R. rewrite Ropp_0, exp_0, Rmult_1_l.
  induction k as [|k IH]; cbn [sum_f_R0].
  - unfold poisson_term. cbn. lra.
  - rewrite IH. unfold poisson_term. rewrite pow_i by lia. lra.
Qed.

Lemma ndiv_one_zero : ndiv (Fin 1) (Fin 0) = PInf.
Proof.
  unfold ndiv. destruct (Req_dec_T 0 0) as [_|H]; [|exfalso; apply H; reflexivity].
  unfold Rsign. destruct (Rlt_dec 0 1); [reflexivity|lra].
Qed.

Lemma poissonScoreBlame_iter_nan :
  poissonScoreBlame_iter globals_after_121 (list_of_floats [0]) 1 0 = Ok NaN.
Proof.
  unfold poissonScoreBlame_iter, list_of_floats. cbn [map py_list]. bind_step.
  change (list_pop [Fin 0] 0) with (@Ok (list num) []). bind_step.
  cbn [py_slice_from drop]. bind_step.
  rewrite !call_121_default.
  rewrite !(poissonProb_121_body_eval _ _ [Fin 0] 1 false)
    by (try discriminate; left; reflexivity).
  cbn [imap]. rewrite exceedance_num_finite by lra.
  unfold exceedance. replace (1 * (0 + 0)) with 0 by lra.
  rewrite poisson_cdf_R_zero_mean. replace (1 - 1) with 0 by lra. bind_step.
  cbn [py_div is_numpy orb np_of np_binop map]. bind_step.
  cbn [py_div is_numpy orb np_of np_binop length Nat.eqb zip_with]. bind_step.
  rewrite ndiv_one_zero. reflexivity.
Qed.

(** One event at time 0 at rate 1: the probability of the window is 0, its
    reciprocal is inf, and inf/inf is nan. *)
Lemma poissonScoreBlame_entries_nan :
  poissonScoreBlame_entries globals_after_121 (list_of_floats [0]) 1 = Ok [NaN].
Proof.
  unfold poissonScoreBlame_entries.
  change (py_len (list_of_floats [0])) with (@Ok nat 1%nat). bind_step.
  cbn [seq for_append]. rewrite poissonScoreBlame_iter_nan. reflexivity.
Qed.

(** C9.  A vector returned by [poissonScoreBlame] or by
    [poissonIntegralBlame] has no nan entry; when the list of entries that
    the loop has built holds a nan, the call ends in AssertionError and
    returns no vector. *)
Theorem blame_vector_has_no_nan (g : gmap string pyfun) (v : pyval) (l : list num)
    (rate : R) (ev : list R) (r xMin xMax : R) (cache : gmap nat (list num)) :
  is_seq v l -> l <> [] ->
  (forall pp, poissonScoreBlame g v rate = Ok pp ->
     Forall (fun x => isnan x = false) pp) /\
  (forall pp, poissonScoreBlame_entries g v rate = Ok pp ->
     Exists (fun x => isnan x = true) pp ->
     poissonScoreBlame g v rate = Err AssertionError) /\
  (forall pp c, poissonIntegralBlame ev r xMin xMax cache = (Ok pp, c) ->
     Forall (fun x => isnan x = false) pp) /\
  (forall pp c, poissonIntegralBlame_entries ev r xMin xMax cache = (Ok pp, c) ->
     Exists (fun x => isnan x = true) pp ->
     poissonIntegralBlame ev r xMin xMax cache = (Err AssertionError, c)).
Proof.
  intros Hs Hne. split; [|split; [|split]].
  - intros pp. apply poissonScoreBlame_no_nan.
  - intros pp. apply (poissonScoreBlame_nan_aborts g v l rate pp Hs Hne).
  - intros pp c. apply poissonIntegralBlame_no_nan.
  - intros pp c. apply poissonIntegralBlame_nan_aborts.
Qed.

Lemma blame_vector_has_no_nan_witness :
  (poissonScoreBlame globals_after_121 (list_of_floats [1]) 1 = Ok [Fin 1] /\
   Forall (fun x => isnan x = false) [Fin 1]) /\
  poissonScoreBlame globals_after_121 (list_of_floats [0]) 1 = Err AssertionError /\
  (exists c, poissonIntegralBlame [0.5] 1 1 2 ∅ = (Ok [Fin 1], c) /\
             Forall (fun x => isnan x = false) [Fin 1]) /\
  (exists c, poissonIntegralBlame [0.5] (-1) 1 2 ∅ = (Err AssertionError, c)).
Proof.
  assert (Hs1 : is_seq (list_of_floats [1]) [Fin 1]) by (left; reflexivity).
  assert (Hs0 : is_seq (list_of_floats [0]) [Fin 0]) by (left; reflexivity).
  assert (Hn1 : [Fin 1] <> []) by discriminate.
  assert (Hn0 : [Fin 0] <> []) by discriminate.
  assert (Hrun : poissonScoreBlame globals_after_121 (list_of_floats [1]) 1 = Ok [Fin 1]).
  { apply (poissonScoreBlame_all_ones (list_of_floats [1]) [1] 1);
      [left; reflexivity | lra | repeat constructor; lra]. }
  split; [|split; [|split]].
  - split; [exact Hrun|].
    apply (proj1 (blame_vector_has_no_nan globals_after_121 _ _ 1 [0.5] 1 1 2 ∅ Hs1 Hn1)
             [Fin 1] Hrun).
  - apply (proj1 (proj2 (blame_vector_has_no_nan globals_after_121 _ _ 1 [0.5] 1 1 2 ∅
                           Hs0 Hn0)) [NaN] poissonScoreBlame_entries_nan).
    repeat constructor.
  - eexists. split; [exact poissonIntegralBlame_run|].
    apply (proj1 (proj2 (proj2 (blame_vector_has_no_nan globals_after_121 _ _ 1 [0.5] 1 1 2 ∅
                                  Hs1 Hn1))) [Fin 1] _ poissonIntegralBlame_run).
  - eexists.
    apply (proj2 (proj2 (proj2 (blame_vector_has_no_nan globals_after_121 _ _ 1 [0.5] (-1) 1 2 ∅
                                  Hs1 Hn1))) [NaN] _ poissonIntegralBlame_entries_nan).
    repeat constructor.
Defined.

(** * Further properties of the modelled functions *)

(** ** The first poissonProb *)

(** X1.  The result of the first [poissonProb] (line 121) is the same
    whatever is passed as [events], for all values of the other three
    arguments, an exception included. *)
Theorem poissonProb_first_events_unused (ev1 ev2 xvals rate cfs : pyval) :
  call globals_after_121 "poissonProb" [ev1; xvals; rate; cfs] []
  = call globals_after_121 "poissonProb" [ev2; xvals; rate; cfs] [].
Proof.
  rewrite !call_121. unfold poissonProb_121_body.
  rewrite !getvar_121_xvals. bind_step.
  destruct (py_len xvals) as [n|e]; [|reflexivity]. bind_step.
  rewrite (for_append_ext (poissonProb_121_iter (locals_121 ev1 xvals rate cfs))
             (poissonProb_121_iter (locals_121 ev2 xvals rate cfs))); [reflexivity|].
  intros i. reflexivity.
Qed.

Lemma exceedance_lt_1 r e i x : 0 <= r * (x + e) -> exceedance r e i x < 1.
Proof.
  intros Hmu. unfold exceedance. pose proof (poisson_cdf_R_pos _ (S i) Hmu). lra.
Qed.

(** X2.  For a rate > 0 and positive window ends the first [poissonProb]
    returns one value per window end, each strictly between 0 and 1, with
    and without the selection correction. *)
Theorem poissonProb_first_unit_interval (events : pyval) (l : list R) (rate : R)
    (c : bool) :
  0 < rate -> Forall (fun x => 0 < x) l ->
  exists ps,
    windowedExceedanceProbability events (list_of_floats l) rate c
      = Ok (array_of_floats ps) /\
    length ps = length l /\
    Forall (fun p => 0 < p < 1) ps.
Proof.
  intros Hr Hl.
  assert (He : 0 <= (if c then 1 / rate else 0)).
  { destruct c; [|lra]. left. apply Rdiv_lt_0_compat; lra. }
  assert (Hmu : Forall (fun x => 0 < rate * (x + (if c then 1 / rate else 0))) l).
  { eapply Forall_impl; [exact Hl|]. intros x Hx. cbn beta.
    apply Rmult_lt_0_compat; lra. }
  exists (exceedances rate (if c then 1 / rate else 0) l). split; [|split].
  - apply windowedExceedanceProbability_eval.
    + intros _ _. lra.
    + eapply Forall_impl; [exact Hmu|]. intros x Hx. cbn beta in *. lra.
  - apply length_imap.
  - rewrite Forall_forall. intros p Hp.
    apply list_elem_of_lookup_1 in Hp as [i Hi].
    unfold exceedances in Hi. rewrite list_lookup_imap in Hi.
    destruct (l !! i) as [x|] eqn:Hx; [|discriminate].
    cbn in Hi. injection Hi as <-.
    rewrite Forall_forall in Hmu.
    pose proof (Hmu x (list_elem_of_lookup_2 _ _ _ Hx)) as Hx'.
    split; [apply exceedance_pos; exact Hx' | apply exceedance_lt_1; lra].
Qed.

Lemma poissonProb_first_unit_interval_witness :
  exists ps,
    windowedExceedanceProbability (list_of_floats []) (list_of_floats [0.1; 0.3]) 2 true
      = Ok (array_of_floats ps) /\
    length ps = length [0.1; 0.3] /\
    Forall (fun p => 0 < p < 1) ps.
Proof.
  apply (poissonProb_first_unit_interval (list_of_floats []) [0.1; 0.3] 2 true).
  - lra.
  - repeat constructor; lra.
Defined.

(** X3.  The two definitions of [poissonProb] are complementary up to a
    shift of the count by two: without correction the first gives, for the
    window end [x] at index [i], [1 - q] where [q] is what the second
    returns for the count [i + 2], the time [x] and the same rate. *)
Theorem poissonProb_definitions_complementary (events : pyval) (l : list R)
    (rate x : R) (i : nat) :
  0 < rate -> Forall (fun y => 0 <= y) l -> l !! i = Some x ->
  exists ps p q,
    windowedExceedanceProbability events (list_of_floats l) rate false
      = Ok (array_of_floats ps) /\
    ps !! i = Some p /\
    probabilityOfAtLeastN (Z.of_nat i + 2) x rate = Ok (VNum (Fin q)) /\
    p = 1 - q.
Proof.
  intros Hr Hl Hx.
  assert (Hx0 : 0 <= x).
  { rewrite Forall_forall in Hl. apply Hl. eapply list_elem_of_lookup_2, Hx. }
  exists (exceedances rate 0 l), (exceedance rate 0 i x),
    (poisson_cdf_R (rate * x) (S i)).
  split; [|split; [|split]].
  - apply (windowedExceedanceProbability_eval events l rate false).
    + discriminate.
    + eapply Forall_impl; [exact Hl|]. intros y Hy. cbn beta.
      apply Rmult_le_pos; lra.
  - unfold exceedances. rewrite list_lookup_imap, Hx. reflexivity.
  - rewrite probabilityOfAtLeastN_eval; [|lia | apply Rmult_le_pos; lra].
    replace (Z.to_nat (Z.of_nat i + 2 - 1)) with (S i) by lia. reflexivity.
  - unfold exceedance. replace (rate * (x + 0)) with (rate * x) by lra. reflexivity.
Qed.

Lemma poissonProb_definitions_complementary_witness :
  exists ps p q,
    windowedExceedanceProbability (list_of_floats []) (list_of_floats [0.1; 0.3]) 2 false
      = Ok (array_of_floats ps) /\
    ps !! 1%nat = Some p /\
    probabilityOfAtLeastN (Z.of_nat 1 + 2) 0.3 2 = Ok (VNum (Fin q)) /\
    p = 1 - q.
Proof.
  apply (poissonProb_definitions_complementary (list_of_floats []) [0.1; 0.3] 2 0.3 1).
  - lra.
  - repeat constructor; lra.
  - reflexivity.
Defined.

(** ** poissonScore *)




Lemma Rmin_list_snoc p ps q : Rmin_list p (ps ++ [q]) = Rmin (Rmin_list p ps) q.
Proof. unfold Rmin_list. rewrite fold_left_app. reflexivity. Qed.

Lemma exceedances_snoc rate e (l : list R) x :
  exceedances rate e (l ++ [x]) = exceedances rate e l ++ [exceedance rate e (length l) x].
Proof.
  unfold exceedances. rewrite imap_app. cbn [imap]. rewrite Nat.add_0_r. reflexivity.
Qed.

(** X5.  Appending one more event after a non-empty sequence never lowers
    the score: the windows of the earlier events are unchanged and the
    minimum is taken over one more window. *)
Theorem poissonScore_append_monotone (l : list R) (x rate : R) :
  0 < rate -> Forall (fun y => 0 <= y) l -> 0 <= x -> l <> [] ->
  exists s1 s2,
    poissonScore globals_after_121 (list_of_floats l) rate = Ok (Fin s1) /\
    poissonScore globals_after_121 (list_of_floats (l ++ [x])) rate = Ok (Fin s2) /\
    s1 <= s2.
Proof.
  intros Hr Hl Hx Hne.
  assert (Hl' : Forall (fun y => 0 <= y) (l ++ [x])).
  { apply Forall_app. split; [exact Hl|]. constructor; [exact Hx | constructor]. }
  eexists. eexists. split; [|split].
  - apply (poissonScore_value _ l rate); [left; reflexivity | assumption..].
  - apply (poissonScore_value _ (l ++ [x]) rate); [left; reflexivity | assumption..].
  - pose proof (exceedances_pos rate (l ++ [x]) Hr Hl') as Hpos'.
    pose proof (exceedances_pos rate l Hr Hl) as Hpos.
    rewrite exceedances_snoc in *.
    destruct (exceedances rate (1 / rate) l) as [|p ps] eqn:E.
    { destruct l; [congruence|]. unfold exceedances in E. rewrite imap_cons in E.
      discriminate E. }
    cbn [app score_of_probabilities]. rewrite Rmin_list_snoc.
    pose proof (Rmin_list_pos p ps Hpos) as Hmin.
    change ((p :: ps) ++ [exceedance rate (1 / rate) (length l) x])
      with (p :: (ps ++ [exceedance rate (1 / rate) (length l) x])) in Hpos'.
    pose proof (Rmin_list_pos _ _ Hpos') as Hmin'. rewrite Rmin_list_snoc in Hmin'.
    pose proof (Rmin_l (Rmin_list p ps) (exceedance rate (1 / rate) (length l) x)) as Hle.
    pose proof (sqrt_lt_R0 rate Hr) as Hsq.
    apply Rmult_le_compat_r; [left; apply Rinv_0_lt_compat; exact Hsq|].
    set (a := Rmin_list p ps) in *.
    set (b := Rmin a (exceedance rate (1 / rate) (length l) x)) in *.
    unfold Rdiv. rewrite !Rmult_1_l. apply Rinv_le_contravar; assumption.
Qed.

Lemma poissonScore_append_monotone_witness :
  exists s1 s2,
    poissonScore globals_after_121 (list_of_floats [0.1; 0.3]) 2 = Ok (Fin s1) /\
    poissonScore globals_after_121 (list_of_floats ([0.1; 0.3] ++ [0.2])) 2 = Ok (Fin s2) /\
    s1 <= s2.
Proof.
  apply (poissonScore_append_monotone [0.1; 0.3] 0.2 2).
  - lra.
  - repeat constructor; lra.
  - lra.
  - discriminate.
Defined.

(** ** The blame functions *)



Lemma for_append_length {A} (body : nat -> result A) idx ys :
  for_append body idx = Ok ys -> length ys = length idx.
Proof.
  revert ys. induction idx as [|i idx IH]; intros ys H.
  - injection H as <-. reflexivity.
  - cbn [for_append] in H. destruct (body i) as [y|e]; [|discriminate H].
    cbn [mbind result_bind mret result_ret] in H. destruct (for_append body idx) as [zs|e]; [|discriminate H].
    cbn [mbind result_bind mret result_ret] in H. injection H as <-. cbn [length]. rewrite (IH zs eq_refl). reflexivity.
Qed.

(** X7.  Whatever function [poissonProb] is bound to, a vector returned by
    [poissonScoreBlame] has one entry per input event, and the empty
    sequence gives the empty vector without any call of [poissonProb] (so
    also when the name is not bound at all). *)
Theorem poissonScoreBlame_aligned (g : gmap string pyfun) (v : pyval) (l : list num)
    (rate : R) :
  is_seq v l ->
  (forall pp, poissonScoreBlame g v rate = Ok pp -> length pp = length l) /\
  (l = [] -> poissonScoreBlame g v rate = Ok []).
Proof.
  intros Hs. split.
  - intros pp. unfold poissonScoreBlame, poissonScoreBlame_entries.
    rewrite (py_len_seq _ _ Hs). bind_step.
    destruct (length l =? 0)%nat eqn:E.
    + intros H. injection H as <-. apply Nat.eqb_eq in E. rewrite E. reflexivity.
    + destruct (for_append (poissonScoreBlame_iter g v rate) (seq 0 (length l)))
        as [qq|e] eqn:Hq; [|discriminate].
      bind_step. destruct (existsb isnan qq); [discriminate|].
      intros H. injection H as <-.
      rewrite (for_append_length _ _ _ Hq), length_seq. reflexivity.
  - intros ->. unfold poissonScoreBlame. rewrite (py_len_seq _ _ Hs). reflexivity.
Qed.

Lemma poissonScoreBlame_aligned_witness :
  (exists pp, poissonScoreBlame globals_after_121 (list_of_floats [1]) 1 = Ok pp /\
              length pp = length [Fin 1]) /\
  poissonScoreBlame ∅ (list_of_floats []) 1 = Ok [].
Proof.
  assert (Hrun : poissonScoreBlame globals_after_121 (list_of_floats [1]) 1 = Ok [Fin 1]).
  { apply (poissonScoreBlame_all_ones (list_of_floats [1]) [1] 1);
      [left; reflexivity | lra | repeat constructor; lra]. }
  split.
  - eexists. split; [exact Hrun|].
    apply (proj1 (poissonScoreBlame_aligned globals_after_121 (list_of_floats [1])
                    [Fin 1] 1 (or_introl eq_refl)) _ Hrun).
  - apply (proj2 (poissonScoreBlame_aligned ∅ (list_of_floats []) [] 1
                    (or_introl eq_refl))). reflexivity.
Defined.

Lemma poissonIntegralBlame_loop_length ev rate xMin xMax idx cache pp c :
  poissonIntegralBlame_loop ev rate xMin xMax idx cache = (Ok pp, c) ->
  length pp = length idx.
Proof.
  revert cache pp c. induction idx as [|i idx IH]; intros cache pp c H.
  - cbn in H. injection H as <- _. reflexivity.
  - cbn [poissonIntegralBlame_loop] in H.
    destruct (list_pop ev i) as [ev2|e]; [|discriminate H].
    destruct (poissonIntegral ev rate xMin xMax cache) as [[pp1|e] c1]; [|discriminate H].
    destruct (poissonIntegral ev2 rate xMin xMax c1) as [[pp2|e] c2]; [|discriminate H].
    destruct (poissonIntegralBlame_loop ev rate xMin xMax idx c2) as [[qq|e] c3] eqn:Hq;
      [|discriminate H].
    injection H as <- _. cbn [length]. rewrite (IH _ _ _ Hq). reflexivity.
Qed.

(** X8.  A vector returned by [poissonIntegralBlame] has one entry per
    input event; with no events the function returns the empty vector and
    leaves the cache as it was, without a call of [poissonIntegral]. *)
Theorem poissonIntegralBlame_aligned (ev : list R) (rate xMin xMax : R)
    (cache : gmap nat (list num)) :
  (forall pp c, poissonIntegralBlame ev rate xMin xMax cache = (Ok pp, c) ->
     length pp = length ev) /\
  poissonIntegralBlame [] rate xMin xMax cache = (Ok [], cache).
Proof.
  split; [|reflexivity].
  intros pp c. unfold poissonIntegralBlame, poissonIntegralBlame_entries.
  destruct (poissonIntegralBlame_loop ev rate xMin xMax (seq 0 (length ev)) cache)
    as [[qq|e] c'] eqn:Hq; [|discriminate].
  destruct (existsb isnan qq); [discriminate|].
  intros H. injection H as <- _.
  rewrite (poissonIntegralBlame_loop_length _ _ _ _ _ _ _ _ Hq), length_seq. reflexivity.
Qed.

Lemma poissonIntegralBlame_aligned_witness :
  exists pp c,
    poissonIntegralBlame [0.5] 1 1 2 ∅ = (Ok pp, c) /\ length pp = length [0.5].
Proof.
  eexists. eexists. split; [exact poissonIntegralBlame_run|].
  apply (proj1 (poissonIntegralBlame_aligned [0.5] 1 1 2 ∅) _ _ poissonIntegralBlame_run).
Defined.

(** ** poissonIntegral and its cache *)

Lemma loop_cache_grows rate tMin tMax dt xvals events st cache res cache' :
  poissonIntegral_loop rate tMin tMax dt xvals events st cache = (res, cache') ->
  cache ⊆ cache'.
Proof.
  revert st cache. induction events as [|ev rest IH]; intros st cache H.
  - cbn in H. injection H as _ <-. reflexivity.
  - cbn [poissonIntegral_loop] in H.
    destruct (Rlt_dec ev tMin); [apply (IH _ _ H)|].
    destruct (py_int _) as [i1|e] in H; [|injection H as _ <-; reflexivity].
    destruct (py_int _) as [i2|e] in H; [|injection H as _ <-; reflexivity].
    assert (Hsub : cache ⊆ match cache !! nev st with
                           | Some _ => cache
                           | None => <[nev st := build_curve rate xvals (nev st)]> cache
                           end).
    { destruct (cache !! nev st) eqn:E; [reflexivity|]. apply insert_subseteq, E. }
    destruct (Req_dec_T _ tMax) in H.
    + injection H as _ <-. exact Hsub.
    + etransitivity; [exact Hsub | apply (IH _ _ H)].
Qed.

(** X9.  [poissonIntegral] only ever adds to its cache: every curve that
    was stored before the call is stored unchanged after it, whether the
    call returns or raises. *)
Theorem poissonIntegral_cache_grows (events : list R) (rate tMin tMax : R)
    (cache cache' : gmap nat (list num)) (res : result num) (k : nat)
    (curve : list num) :
  poissonIntegral events rate tMin tMax cache = (res, cache') ->
  cache !! k = Some curve -> cache' !! k = Some curve.
Proof.
  unfold poissonIntegral. intros H Hk.
  destruct (poissonIntegral_loop _ _ _ _ _ _ _ cache) as [[st|e] c] eqn:Hl;
    injection H as _ <-;
    apply loop_cache_grows in Hl;
    exact (lookup_weaken _ _ _ _ Hk Hl).
Qed.

Lemma poissonIntegral_cache_grows_witness :
  exists res cache',
    poissonIntegral [] 2 1 2
      (<[0%nat := build_curve 1 (linspace 1 2 grid_points) 0]> (∅ : gmap nat (list num)))
    = (res, cache') /\
    cache' !! 0%nat = Some (build_curve 1 (linspace 1 2 grid_points) 0).
Proof.
  assert (Hrun : poissonIntegral [] 2 1 2
            (<[0%nat := build_curve 1 (linspace 1 2 grid_points) 0]> ∅)
          = (Ok (Fin (integral_no_events 1 1 2)),
             <[0%nat := build_curve 1 (linspace 1 2 grid_points) 0]> ∅)).
  { apply poissonIntegral_stale; try lra; [constructor | apply lookup_insert_eq]. }
  eexists. eexists. split; [exact Hrun|].
  apply (poissonIntegral_cache_grows _ _ _ _ _ _ _ 0%nat _ Hrun).
  apply lookup_insert_eq.
Defined.

Lemma loop_replay rate tMin tMax dt xvals events st cache res cache' d :
  poissonIntegral_loop rate tMin tMax dt xvals events st cache = (res, cache') ->
  cache' ⊆ d ->
  poissonIntegral_loop rate tMin tMax dt xvals events st d = (res, d).
Proof.
  revert st cache. induction events as [|ev rest IH]; intros st cache H Hd.
  - cbn in H. injection H as <- _. reflexivity.
  - cbn [poissonIntegral_loop] in *.
    destruct (Rlt_dec ev tMin); [apply (IH _ _ H Hd)|].
    destruct (py_int (ndiv (Fin (t_last st - tMin)) (Fin dt))) as [i1|e];
      [|injection H as <- _; reflexivity].
    destruct (py_int _) as [i2|e]; [|injection H as <- _; reflexivity].
    set (c1 := match cache !! nev st with
               | Some _ => cache
               | None => <[nev st := build_curve rate xvals (nev st)]> cache
               end) in *.
    assert (Hc1 : exists curve, c1 !! nev st = Some curve).
    { unfold c1. destruct (cache !! nev st) eqn:E; [eauto|].
      rewrite lookup_insert_eq. eauto. }
    destruct Hc1 as [curve Hcurve].
    assert (Hsub : c1 ⊆ d).
    { destruct (Req_dec_T _ tMax) in H.
      - injection H as _ <-. exact Hd.
      - etransitivity; [apply (loop_cache_grows _ _ _ _ _ _ _ _ _ _ H) | exact Hd]. }
    pose proof (lookup_weaken _ _ _ _ Hcurve Hsub) as Hdk.
    rewrite Hcurve in H. rewrite Hdk. rewrite Hdk. cbn [default] in *.
    destruct (Req_dec_T _ tMax).
    + injection H as <- _. reflexivity.
    + apply (IH _ _ H Hd).
Qed.

(** X10.  Repeating a call on the cache that the call has left behind gives
    the same outcome and changes the cache no further. *)
Theorem poissonIntegral_repeat (events : list R) (rate tMin tMax : R)
    (cache cache' : gmap nat (list num)) (res : result num) :
  poissonIntegral events rate tMin tMax cache = (res, cache') ->
  poissonIntegral events rate tMin tMax cache' = (res, cache').
Proof.
  unfold poissonIntegral. intros H.
  destruct (poissonIntegral_loop _ _ _ _ _ _ _ cache) as [[st|e] c] eqn:Hl;
    injection H as <- <-;
    rewrite (loop_replay _ _ _ _ _ _ _ _ _ _ c Hl); reflexivity.
Qed.

Lemma poissonIntegral_repeat_witness :
  poissonIntegral [] 1 1 2 (<[0%nat := build_curve 1 (linspace 1 2 grid_points) 0]> ∅)
  = (Ok (Fin (integral_no_events 1 1 2)),
     <[0%nat := build_curve 1 (linspace 1 2 grid_points) 0]> ∅).
Proof.
  apply (poissonIntegral_repeat [] 1 1 2 ∅).
  apply poissonIntegral_fresh; try lra; [constructor | reflexivity].
Defined.

(** *** Sorting *)

Lemma insert_sorted_comm x y s :
  insert_sorted x (insert_sorted y s) = insert_sorted y (insert_sorted x s).
Proof.
  induction s as [|z s IH]; cbn [insert_sorted].
  - destruct (Rle_dec x y), (Rle_dec y x); try reflexivity; try lra.
    assert (x = y) by lra. subst. reflexivity.
  - destruct (Rle_dec y z) as [Hyz|Hyz], (Rle_dec x z) as [Hxz|Hxz]; cbn [insert_sorted].
    + destruct (Rle_dec x y), (Rle_dec y x), (Rle_dec x z), (Rle_dec y z);
        try reflexivity; try lra.
      assert (x = y) by lra. subst. reflexivity.
    + destruct (Rle_dec x y), (Rle_dec y x), (Rle_dec x z), (Rle_dec y z);
        try reflexivity; try lra.
    + destruct (Rle_dec x y), (Rle_dec y x), (Rle_dec x z), (Rle_dec y z);
        try reflexivity; try lra.
    + destruct (Rle_dec x z), (Rle_dec y z); try lra. rewrite IH. reflexivity.
Qed.

Lemma sort_floats_Permutation l l' : Permutation l l' -> sort_floats l = sort_floats l'.
Proof.
  induction 1 as [|x l l' _ IH|x y l|l l' l'' _ IH1 _ IH2]; cbn [sort_floats fold_right].
  - reflexivity.
  - fold (sort_floats l). fold (sort_floats l'). rewrite IH. reflexivity.
  - apply insert_sorted_comm.
  - etransitivity; eassumption.
Qed.

Lemma insert_sorted_least x l : Forall (Rle x) l -> insert_sorted x l = x :: l.
Proof.
  intros H. destruct H as [|y l Hy _]; [reflexivity|].
  cbn [insert_sorted]. destruct (Rle_dec x y); [reflexivity|contradiction].
Qed.

Lemma insert_sorted_ascending x s : ascending s -> ascending (insert_sorted x s).
Proof.
  induction s as [|y s IH]; intros Hs.
  - cbn. split; [constructor|exact I].
  - destruct Hs as [Hy Hs]. cbn [insert_sorted]. destruct (Rle_dec x y) as [Hxy|Hxy].
    + cbn [ascending]. split; [|split; assumption].
      constructor; [exact Hxy|]. eapply Forall_impl; [exact Hy|].
      intros z Hz. cbn beta in *. lra.
    + cbn [ascending]. split; [|apply IH, Hs].
      apply insert_sorted_Forall; [lra | exact Hy].
Qed.

Lemma sort_floats_ascending l : ascending (sort_floats l).
Proof.
  induction l as [|x l IH]; [exact I|]. cbn [sort_floats fold_right].
  apply insert_sorted_ascending, IH.
Qed.

Lemma filter_Forall (P : R -> Prop) f l : Forall P l -> Forall P (List.filter f l).
Proof.
  induction 1 as [|x l Hx _ IH]; cbn [List.filter]; [constructor|].
  destruct (f x); [constructor; assumption | assumption].
Qed.

Lemma filter_insert_sorted f x s :
  ascending s ->
  List.filter f (insert_sorted x s)
  = if f x then insert_sorted x (List.filter f s) else List.filter f s.
Proof.
  induction s as [|y s IH]; intros Hs.
  - cbn. destruct (f x); reflexivity.
  - destruct Hs as [Hy Hs]. cbn [insert_sorted]. destruct (Rle_dec x y) as [Hxy|Hxy].
    + cbn [List.filter]. destruct (f x) eqn:Hfx; [|reflexivity].
      symmetry. apply insert_sorted_least.
      assert (Hall : Forall (Rle x) (y :: s)).
      { constructor; [exact Hxy|]. eapply Forall_impl; [exact Hy|].
        intros z Hz. cbn beta in *. lra. }
      apply (filter_Forall _ f _ Hall).
    + cbn [List.filter]. rewrite (IH Hs).
      destruct (f y), (f x); try reflexivity.
      cbn [insert_sorted]. destruct (Rle_dec x y); [contradiction|reflexivity].
Qed.

Lemma filter_sort_floats f l :
  List.filter f (sort_floats l) = sort_floats (List.filter f l).
Proof.
  induction l as [|x l IH]; [reflexivity|].
  cbn [sort_floats fold_right List.filter]. fold (sort_floats l).
  rewrite filter_insert_sorted by apply sort_floats_ascending.
  rewrite IH. destruct (f x); reflexivity.
Qed.

(** *** Events outside the window *)

Lemma loop_break rate tMin tMax dt xvals ev rest st cache :
  tMin <= tMax -> tMax <= ev ->
  poissonIntegral_loop rate tMin tMax dt xvals (ev :: rest) st cache
  = poissonIntegral_loop rate tMin tMax dt xvals [tMax] st cache.
Proof.
  intros Hw Hev. cbn [poissonIntegral_loop].
  destruct (Rlt_dec ev tMin); [lra|]. destruct (Rlt_dec tMax tMin); [lra|].
  assert (Hc : (if Rlt_dec tMax ev then tMax else ev) = tMax)
    by (destruct (Rlt_dec tMax ev); lra).
  rewrite Hc. destruct (Rlt_dec tMax tMax); [lra|].
  destruct (py_int _); [|reflexivity]. destruct (py_int _); [|reflexivity].
  destruct (Req_dec_T tMax tMax); [reflexivity|contradiction].
Qed.

Lemma filter_in_window_beyond tMin tMax l :
  Forall (Rle tMax) l -> List.filter (in_window tMin tMax) l = [].
Proof.
  induction 1 as [|x l Hx _ IH]; [reflexivity|].
  cbn [List.filter]. unfold in_window at 1.
  destruct (Rlt_dec x tMin); [exact IH|]. destruct (Rlt_dec x tMax); [lra|exact IH].
Qed.

Lemma loop_in_window rate tMin tMax dt xvals s st cache :
  tMin <= tMax -> ascending s ->
  poissonIntegral_loop rate tMin tMax dt xvals (s ++ [tMax]) st cache
  = poissonIntegral_loop rate tMin tMax dt xvals
      (List.filter (in_window tMin tMax) s ++ [tMax]) st cache.
Proof.
  intros Hw. revert st cache. induction s as [|ev s IH]; intros st cache Hs; [reflexivity|].
  destruct Hs as [Hev Hs]. cbn [List.filter]. unfold in_window at 1.
  destruct (Rlt_dec ev tMin) as [Hlo|Hlo].
  - cbn [app poissonIntegral_loop]. destruct (Rlt_dec ev tMin); [|contradiction].
    apply IH, Hs.
  - destruct (Rlt_dec ev tMax) as [Hhi|Hhi].
    + cbn [app poissonIntegral_loop]. destruct (Rlt_dec ev tMin); [contradiction|].
      destruct (Rlt_dec tMax ev); [lra|].
      destruct (py_int _); [|reflexivity]. destruct (py_int _); [|reflexivity].
      destruct (Req_dec_T ev tMax); [lra|]. apply IH, Hs.
    + rewrite filter_in_window_beyond.
      * cbn [app]. apply loop_break; lra.
      * eapply Forall_impl; [exact Hev|]. intros z Hz. cbn beta in *. lra.
Qed.

(** X11.  For a window with [tMin <= tMax] only the events with
    [tMin <= ev < tMax] count: dropping every other event from the input
    changes neither the outcome nor the cache that is left behind. *)
Theorem poissonIntegral_only_window_events (events : list R) (rate tMin tMax : R)
    (cache : gmap nat (list num)) :
  tMin <= tMax ->
  poissonIntegral events rate tMin tMax cache
  = poissonIntegral (List.filter (in_window tMin tMax) events) rate tMin tMax cache.
Proof.
  intros Hw. unfold poissonIntegral.
  rewrite loop_in_window by (try assumption; apply sort_floats_ascending).
  rewrite (loop_in_window _ _ _ _ _ (sort_floats (List.filter _ _)))
    by (try assumption; apply sort_floats_ascending).
  rewrite <- !filter_sort_floats.
  assert (Hidem : forall l, List.filter (in_window tMin tMax)
                              (List.filter (in_window tMin tMax) l)
                            = List.filter (in_window tMin tMax) l).
  { induction l as [|x l IHl]; [reflexivity|]. cbn [List.filter].
    destruct (in_window tMin tMax x) eqn:E; [|exact IHl].
    cbn [List.filter]. rewrite E, IHl. reflexivity. }
  rewrite Hidem. reflexivity.
Qed.

Lemma poissonIntegral_only_window_events_witness :
  poissonIntegral [0.5; 1.5; 2.5] 3 1 2 ∅
  = poissonIntegral (List.filter (in_window 1 2) [0.5; 1.5; 2.5]) 3 1 2 ∅.
Proof.
  apply (poissonIntegral_only_window_events [0.5; 1.5; 2.5] 3 1 2 ∅). lra.
Defined.

(** X12.  The outcome depends on the events as a multiset only: two inputs
    that are permutations of each other give the same value and the same
    cache. *)
Theorem poissonIntegral_order_irrelevant (events events' : list R)
    (rate tMin tMax : R) (cache : gmap nat (list num)) :
  Permutation events events' ->
  poissonIntegral events rate tMin tMax cache
  = poissonIntegral events' rate tMin tMax cache.
Proof.
  intros Hp. unfold poissonIntegral. rewrite (sort_floats_Permutation _ _ Hp). reflexivity.
Qed.

Lemma poissonIntegral_order_irrelevant_witness :
  poissonIntegral [1.5; 1.2] 3 1 2 ∅ = poissonIntegral [1.2; 1.5] 3 1 2 ∅.
Proof.
  apply (poissonIntegral_order_irrelevant [1.5; 1.2] [1.2; 1.5] 3 1 2 ∅).
  apply perm_swap.
Defined.

(** *** The value on a valid window *)









Section ValidWindow.
Variables rate tMin tMax : R.
Hypothesis Hrate : 0 < rate.
Hypothesis HtMin : 0 < tMin.
Hypothesis Hwin : tMin < tMax.







End ValidWindow.









(** ** poissonProcess *)

(** X16.  [poissonProcess] raises on its first turn for a rate that is not
    positive, before any variate is drawn: ZeroDivisionError from [1./rate]
    at rate 0 and ValueError from the generator, which is handed a negative
    scale, below 0; whatever [tmax] and [n] are. *)
Theorem poissonProcess_bad_rate (rate : R) (tmax : option R) (n : option Z)
    (draws : list R) :
  (rate = 0 -> poissonProcess rate tmax n draws = SimRaise ZeroDivisionError) /\
  (rate < 0 -> poissonProcess rate tmax n draws = SimRaise ValueError).
Proof.
  split; intros H; unfold poissonProcess; destruct draws; cbn [poissonProcess_loop].
  - destruct (Req_dec_T rate 0); [reflexivity|contradiction].
  - destruct (Req_dec_T rate 0); [reflexivity|contradiction].
  - destruct (Req_dec_T rate 0); [lra|].
    assert (1 / rate < 0).
    { unfold Rdiv. rewrite Rmult_1_l. apply Rinv_lt_0_compat, H. }
    destruct (Rlt_dec (1 / rate) 0); [reflexivity|contradiction].
  - destruct (Req_dec_T rate 0); [lra|].
    assert (1 / rate < 0).
    { unfold Rdiv. rewrite Rmult_1_l. apply Rinv_lt_0_compat, H. }
    destruct (Rlt_dec (1 / rate) 0); [reflexivity|contradiction].
Qed.

Lemma poissonProcess_bad_rate_witness :
  poissonProcess 0 (Some 1) None [0.3] = SimRaise ZeroDivisionError /\
  poissonProcess (-2) None (Some 1%Z) [0.3] = SimRaise ValueError.
Proof.
  split.
  - apply (proj1 (poissonProcess_bad_rate 0 (Some 1) None [0.3])). reflexivity.
  - apply (proj2 (poissonProcess_bad_rate (-2) None (Some 1%Z) [0.3])). lra.
Defined.

Lemma poissonProcess_loop_good_rate rate tmax n e draws t events :
  0 < rate ->
  poissonProcess_loop rate tmax n (e :: draws) t events
  = if past_tmax tmax (t + 1 / rate * e) then SimReturn events draws
    else if reached_n n (events ++ [t + 1 / rate * e])
         then SimReturn (events ++ [t + 1 / rate * e]) draws
         else poissonProcess_loop rate tmax n draws (t + 1 / rate * e)
                (events ++ [t + 1 / rate * e]).
Proof.
  intros Hr. cbn [poissonProcess_loop].
  destruct (Req_dec_T rate 0); [lra|].
  assert (0 < 1 / rate) by (apply Rdiv_lt_0_compat; lra).
  destruct (Rlt_dec (1 / rate) 0); [lra|]. reflexivity.
Qed.

Lemma poissonProcess_loop_no_stop rate draws t events :
  0 < rate -> poissonProcess_loop rate None None draws t events = SimNeedsDraw.
Proof.
  intros Hr. revert t events. induction draws as [|e draws IH]; intros t events.
  - cbn. destruct (Req_dec_T rate 0); [lra|].
    assert (0 < 1 / rate) by (apply Rdiv_lt_0_compat; lra).
    destruct (Rlt_dec (1 / rate) 0); [lra|]. reflexivity.
  - rewrite poissonProcess_loop_good_rate by assumption. cbn [past_tmax reached_n].
    apply IH.
Qed.

(** X17.  Without [tmax] and without [n] the loop has no exit: for a rate
    > 0 every finite supply of variates is used up and the function has not
    returned. *)
Theorem poissonProcess_no_stop_never_returns (rate : R) (draws : list R) :
  0 < rate -> poissonProcess rate None None draws = SimNeedsDraw.
Proof. intros Hr. apply poissonProcess_loop_no_stop, Hr. Qed.

Lemma poissonProcess_no_stop_never_returns_witness :
  poissonProcess 15 None None [0.2; 1.3; 0.7] = SimNeedsDraw.
Proof. apply (poissonProcess_no_stop_never_returns 15 [0.2; 1.3; 0.7]). lra. Defined.

Lemma poissonProcess_loop_count rate k draws t events :
  0 < rate ->
  (length events < Z.to_nat (Z.max k 1))%nat ->
  (Z.to_nat (Z.max k 1) - length events <= length draws)%nat ->
  poissonProcess_loop rate None (Some k) draws t events
  = SimReturn
      (events ++ take (Z.to_nat (Z.max k 1) - length events) (arrivals (1 / rate) t draws))
      (drop (Z.to_nat (Z.max k 1) - length events) draws).
Proof.
  intros Hr. revert t events. induction draws as [|e draws IH]; intros t events Hj Hd.
  - cbn [length] in Hd. lia.
  - rewrite poissonProcess_loop_good_rate by assumption. cbn [past_tmax reached_n].
    rewrite length_app. cbn [length].
    destruct (k <=? Z.of_nat (length events + 1))%Z eqn:E.
    + apply Z.leb_le in E.
      replace (Z.to_nat (Z.max k 1) - length events)%nat with 1%nat by lia.
      reflexivity.
    + apply Z.leb_gt in E. rewrite IH.
      * rewrite length_app. cbn [length].
        replace (Z.to_nat (Z.max k 1) - length events)%nat
          with (S (Z.to_nat (Z.max k 1) - (length events + 1)))%nat by lia.
        cbn [arrivals take drop]. rewrite <- app_assoc. reflexivity.
      * rewrite length_app. cbn [length]. lia.
      * rewrite length_app. cbn [length]. cbn [length] in Hd. lia.
Qed.

(** X18.  With a count [n] and no [tmax], a rate > 0 and enough variates
    the function returns exactly [max(n, 1)] events, the first that many
    arrival times, and has drawn exactly that many variates: the count is
    tested after the append, so [n <= 0] still gives one event. *)
Theorem poissonProcess_count (rate : R) (k : Z) (draws : list R) :
  0 < rate -> (Z.to_nat (Z.max k 1) <= length draws)%nat ->
  poissonProcess rate None (Some k) draws
  = SimReturn (take (Z.to_nat (Z.max k 1)) (arrivals (1 / rate) 0 draws))
      (drop (Z.to_nat (Z.max k 1)) draws).
Proof.
  intros Hr Hd. unfold poissonProcess.
  rewrite poissonProcess_loop_count; cbn [length]; try assumption; try lia.
  rewrite Nat.sub_0_r. reflexivity.
Qed.

Lemma poissonProcess_count_witness :
  poissonProcess 15 None (Some 0%Z) [0.3; 0.6]
  = SimReturn (take (Z.to_nat (Z.max 0 1)) (arrivals (1 / 15) 0 [0.3; 0.6]))
      (drop (Z.to_nat (Z.max 0 1)) [0.3; 0.6]).
Proof.
  apply (poissonProcess_count 15 0 [0.3; 0.6]); [lra | cbn; lia].
Defined.

Lemma poissonProcess_loop_invariant rate m n draws t events evs rest :
  0 < rate -> Forall (fun e => 0 <= e) draws ->
  poissonProcess_loop rate (Some m) n draws t events = SimReturn evs rest ->
  exists new,
    evs = events ++ new /\
    new = take (length new) (arrivals (1 / rate) t draws) /\
    Forall (fun x => t <= x /\ x <= m) new /\
    ascending new.
Proof.
  intros Hr Hd. revert t events. induction Hd as [|e draws He _ IH]; intros t events H.
  - cbn in H. destruct (Req_dec_T rate 0); [discriminate|].
    destruct (Rlt_dec (1 / rate) 0); discriminate.
  - rewrite poissonProcess_loop_good_rate in H by assumption.
    assert (Hstep : t <= t + 1 / rate * e).
    { assert (0 <= 1 / rate * e); [|lra].
      apply Rmult_le_pos; [|exact He]. left. apply Rdiv_lt_0_compat; lra. }
    unfold past_tmax in H. destruct (Rlt_dec m (t + 1 / rate * e)) as [Hp|Hp].
    + injection H as <- _. exists []. rewrite app_nil_r.
      split; [reflexivity|]. split; [reflexivity|]. split; [constructor | exact I].
    + destruct (reached_n n (events ++ [t + 1 / rate * e])).
      * injection H as <- _. exists [t + 1 / rate * e].
        split; [reflexivity|]. split; [reflexivity|].
        split; [constructor; [lra | constructor]|]. cbn. split; [constructor|exact I].
      * destruct (IH _ _ H) as [new [Hevs [Htake [Hall Hasc]]]].
        exists ((t + 1 / rate * e) :: new).
        split; [rewrite Hevs, <- app_assoc; reflexivity|].
        split; [cbn [length arrivals take]; rewrite <- Htake; reflexivity|].
        split.
        -- constructor; [lra|]. eapply Forall_impl; [exact Hall|].
           intros x Hx. cbn beta in *. lra.
        -- cbn [ascending]. split; [|exact Hasc].
           eapply Forall_impl; [exact Hall|]. intros x Hx. cbn beta in *. lra.
Qed.

(** X19.  With a bound [tmax], a rate > 0 and non-negative variates, the
    events that [poissonProcess] returns are the first arrival times, in
    ascending order, and none lies before 0 or after [tmax]; with and
    without a count [n]. *)
Theorem poissonProcess_within_tmax (rate m : R) (n : option Z) (draws events rest : list R) :
  0 < rate -> Forall (fun e => 0 <= e) draws ->
  poissonProcess rate (Some m) n draws = SimReturn events rest ->
  events = take (length events) (arrivals (1 / rate) 0 draws) /\
  ascending events /\
  Forall (fun x => 0 <= x /\ x <= m) events.
Proof.
  intros Hr Hd H. unfold poissonProcess in H.
  destruct (poissonProcess_loop_invariant _ _ _ _ _ _ _ _ Hr Hd H)
    as [new [Hevs [Htake [Hall Hasc]]]].
  cbn [app] in Hevs. subst new. auto.
Qed.

(** A run: rate 1, tmax 1, variates 0.5 and 0.7. *)
Lemma poissonProcess_run :
  poissonProcess 1 (Some 1) None [0.5; 0.7] = SimReturn [0 + 1 / 1 * 0.5] [].
Proof.
  unfold poissonProcess. rewrite !poissonProcess_loop_good_rate by lra.
  unfold past_tmax, reached_n.
  destruct (Rlt_dec 1 (0 + 1 / 1 * 0.5)); [lra|].
  destruct (Rlt_dec 1 (0 + 1 / 1 * 0.5 + 1 / 1 * 0.7)); [reflexivity|lra].
Qed.

Lemma poissonProcess_within_tmax_witness :
  [0 + 1 / 1 * 0.5] = take (length [0 + 1 / 1 * 0.5]) (arrivals (1 / 1) 0 [0.5; 0.7]) /\
  ascending [0 + 1 / 1 * 0.5] /\
  Forall (fun x => 0 <= x /\ x <= 1) [0 + 1 / 1 * 0.5].
Proof.
  apply (poissonProcess_within_tmax 1 1 None [0.5; 0.7] [0 + 1 / 1 * 0.5] []).
  - lra.
  - constructor; [lra|]. constructor; [lra|]. constructor.
  - exact poissonProcess_run.
Defined.




(** ** maxPoissonProb *)

Lemma zip_with_map_seq {A B C} (f : A -> B -> C) (h : nat -> B) (xs : list A) k :
  zip_with f xs (map h (seq k (length xs))) = imap (fun i x => f x (h (k + i)%nat)) xs.
Proof.
  revert k. induction xs as [|x xs IH]; intros k; [reflexivity|].
  cbn [length seq map zip_with]. rewrite imap_cons, Nat.add_0_r. f_equal.
  rewrite IH. apply imap_ext. intros i y _. cbn. f_equal. f_equal. lia.
Qed.

Lemma getvar_266 n t l :
  getvar (locals_266 n t l) "l" = Ok l /\
  getvar (locals_266 n t l) "t" = Ok t /\
  getvar (locals_266 n t l) "n" = Ok n.
Proof. repeat split; reflexivity. Qed.

(** The rebound [poissonProb] on the counts 1, 2, ... and an array of
    non-negative event times. *)
Lemma poissonProb_266_on_events (ev : list R) l :
  0 <= l -> Forall (fun x => 0 <= x) ev ->
  call module_globals "poissonProb"
    [np_arange_1 (length ev); array_of_floats ev; VFloat l] []
  = Ok (array_of_floats (event_cdfs l ev)).
Proof.
  intros Hl Hev. rewrite call_266. unfold poissonProb_266_body.
  destruct (getvar_266 (np_arange_1 (length ev)) (array_of_floats ev) (VFloat l))
    as [-> [-> ->]]. bind_step.
  unfold np_arange_1, array_of_floats.
  cbn [py_mul py_sub is_numpy orb np_of np_binop]. bind_step.
  unfold scipy_poisson_cdf. cbn [np_of np_binop].
  set (xs := map (nmul (Fin l)) (map Fin ev)).
  assert (Hlen : length ev = length xs) by (unfold xs; rewrite !length_map; reflexivity).
  rewrite map_map, Hlen.
  rewrite length_map, length_seq, Nat.eqb_refl.
  rewrite zip_with_map_seq. unfold xs. rewrite map_map, imap_fmap.
  unfold event_cdfs. rewrite map_imap. do 2 f_equal. apply imap_ext. intros i x Hx.
  cbn [compose nmul nsub nopp nadd].
  replace (INR (1 + i) + - (1)) with (IZR (Z.of_nat i))
    by (rewrite plus_INR, (INR_IZR_INZ i); change (INR 1) with 1; lra).
  apply poisson_cdf_count. apply Rmult_le_pos; [exact Hl|].
  rewrite Forall_forall in Hev. apply Hev. eapply list_elem_of_lookup_2, Hx.
Qed.

Lemma argmax_scan_spec (pre a : list R) best mp :
  is_first_max pre best mp ->
  exists m,
    is_first_max (pre ++ a) (argmax_scan (Fin mp) best (length pre) (map Fin a)) m.
Proof.
  revert pre best mp. induction a as [|x a IH]; intros pre best mp Hinv.
  - exists mp. rewrite app_nil_r. exact Hinv.
  - destruct Hinv as [Hbest [Hall Hfirst]].
    assert (Hb : (best < length pre)%nat) by (eapply lookup_lt_Some, Hbest).
    cbn [map argmax_scan nleb isnan].
    replace (pre ++ x :: a) with ((pre ++ [x]) ++ a) by (rewrite <- app_assoc; reflexivity).
    replace (S (length pre)) with (length (pre ++ [x]))
      by (rewrite length_app; cbn; lia).
    destruct (Rle_dec x mp) as [Hle|Hgt].
    + apply IH. split; [|split].
      * rewrite lookup_app_l by exact Hb. exact Hbest.
      * apply Forall_app. split; [exact Hall|]. constructor; [exact Hle|constructor].
      * intros j y Hj Hy. rewrite lookup_app_l in Hy by lia. apply (Hfirst j y Hj Hy).
    + apply IH. split; [|split].
      * rewrite lookup_app_r by lia. rewrite Nat.sub_diag. reflexivity.
      * apply Forall_app. split.
        -- eapply Forall_impl; [exact Hall|]. intros y Hy. cbn beta in *. lra.
        -- constructor; [lra|constructor].
      * intros j y Hj Hy. rewrite lookup_app_l in Hy by exact Hj.
        rewrite Forall_forall in Hall.
        pose proof (Hall y (list_elem_of_lookup_2 _ _ _ Hy)). lra.
Qed.

Lemma argmax_finite (x : R) (a : list R) :
  exists ind m, argmax (map Fin (x :: a)) = Some ind /\ is_first_max (x :: a) ind m.
Proof.
  cbn [map argmax isnan].
  destruct (argmax_scan_spec [x] a 0 x) as [m Hm].
  - split; [reflexivity|]. split; [constructor; [lra|constructor]|].
    intros j y Hj. lia.
  - eexists. exists m. split; [reflexivity|]. exact Hm.
Qed.

(** X21.  For a rate >= 0 and a non-empty array of non-negative event times
    [maxPoissonProb] returns a list of [len(ev) + 2] items: the largest of
    the values [CDF(i; l * ev_i)] ([i] counted from 0), the first index at
    which it occurs, and then all the values in order. *)
Theorem maxPoissonProb_first_maximum (ev : list R) (l : R) :
  0 <= l -> Forall (fun x => 0 <= x) ev -> ev <> [] ->
  exists ind m,
    maxPoissonProb module_globals (array_of_floats ev) l
    = Ok ([VNum (Fin m); VInt (Z.of_nat ind)]
            ++ map VNum (map Fin (event_cdfs l ev))) /\
    is_first_max (event_cdfs l ev) ind m /\
    length (event_cdfs l ev) = length ev.
Proof.
  intros Hl Hev Hne. unfold maxPoissonProb.
  change (py_len (array_of_floats ev)) with (Ok (length (map Fin ev)) : result nat).
  bind_step. rewrite length_map.
  rewrite (poissonProb_266_on_events ev l Hl Hev). bind_step.
  assert (Hlen : length (event_cdfs l ev) = length ev) by apply length_imap.
  destruct (event_cdfs l ev) as [|p ps] eqn:E.
  { destruct ev; [congruence|discriminate Hlen]. }
  destruct (argmax_finite p ps) as [ind [m [Harg Hmax]]].
  exists ind, m. unfold np_argmax, array_of_floats. cbn [np_of]. rewrite Harg. bind_step.
  destruct Hmax as [Hind Hrest].
  cbn [py_index]. rewrite list_lookup_fmap, Hind. cbn [fmap option_fmap option_map]. bind_step.
  cbn [py_list]. bind_step.
  split; [reflexivity|]. split; [split; assumption | exact Hlen].
Qed.

Lemma maxPoissonProb_first_maximum_witness :
  exists ind m,
    maxPoissonProb module_globals (array_of_floats [0.05; 0.2]) 15
    = Ok ([VNum (Fin m); VInt (Z.of_nat ind)]
            ++ map VNum (map Fin (event_cdfs 15 [0.05; 0.2]))) /\
    is_first_max (event_cdfs 15 [0.05; 0.2]) ind m /\
    length (event_cdfs 15 [0.05; 0.2]) = length [0.05; 0.2].
Proof.
  apply (maxPoissonProb_first_maximum [0.05; 0.2] 15).
  - lra.
  - constructor; [lra|]. constructor; [lra|]. constructor.
  - discriminate.
Defined.

(** X22.  [maxPoissonProb] has no result for an empty array: [np.argmax]
    raises ValueError; and it raises TypeError for any Python list, which
    the rebound [poissonProb] cannot multiply by the float rate. *)
Theorem maxPoissonProb_rejects (l : R) (evl : list num) :
  maxPoissonProb module_globals (array_of_floats []) l = Err ValueError /\
  maxPoissonProb module_globals (VList evl) l = Err (TypeError (UnsupportedOperand "*")).
Proof.
  split.
  - unfold maxPoissonProb, array_of_floats. cbn [map py_len length]. bind_step.
    rewrite call_266. unfold poissonProb_266_body.
    destruct (getvar_266 (np_arange_1 0) (VArray []) (VFloat l)) as [-> [-> ->]].
    reflexivity.
  - unfold maxPoissonProb. cbn [py_len]. bind_step.
    rewrite call_266. unfold poissonProb_266_body.
    destruct (getvar_266 (np_arange_1 (length evl)) (VList evl) (VFloat l)) as [-> [-> ->]].
    reflexivity.
Qed.

(** ** productlog *)

Lemma nlog_pos (r : R) : 0 < r -> nlog (Fin r) = Fin (ln r).
Proof.
  intros H. unfold nlog. destruct (Rlt_dec 0 r); [reflexivity|contradiction].
Qed.

Lemma nlog_neg (r : R) : r < 0 -> nlog (Fin r) = NaN.
Proof.
  intros H. unfold nlog.
  destruct (Rlt_dec 0 r); [lra|]. destruct (Rlt_dec r 0); [reflexivity|contradiction].
Qed.

Lemma productlog_estimate (x : R) :
  -1 < x -> x <= 500 ->
  productlog (Fin x)
  = Fin (0.665 * (1 + 0.0195 * ln (x + 1)) * ln (x + 1) + 0.04).
Proof.
  intros H1 H2. unfold productlog, nleb.
  destruct (Rle_dec x 500); [|contradiction].
  cbn [nadd]. rewrite nlog_pos by lra. reflexivity.
Qed.

(** X23.  For every finite argument above -1 [productlog] returns a finite
    number: neither branch takes the logarithm of a number <= 0 or divides
    by zero. *)
Theorem productlog_finite (x : R) :
  -1 < x -> exists r, productlog (Fin x) = Fin r.
Proof.
  intros H. destruct (Rle_dec x 500) as [Hle|Hgt].
  - eexists. apply productlog_estimate; assumption.
  - assert (Hx : 500 < x) by lra.
    assert (Hln : 0 < ln x).
    { rewrite <- ln_1. apply ln_increasing; lra. }
    unfold productlog, nleb. destruct (Rle_dec x 500); [contradiction|].
    unfold nsub. cbn [nopp nadd].
    rewrite (nlog_pos x) by lra. rewrite (nlog_pos (x + - (4))) by lra.
    rewrite (nlog_pos (ln x)) by exact Hln.
    cbn [ndiv]. destruct (Req_dec_T (ln x) 0) as [E|_]; [lra|].
    cbn [nopp nadd nmul]. eexists. reflexivity.
Qed.

Lemma productlog_finite_witness : exists r, productlog (Fin 1000) = Fin r.
Proof.
  apply (productlog_finite 1000). lra.
Defined.

(** X24.  On [0, 500] the estimate of [productlog] is strictly increasing
    and never below 0.04, the value it takes at 0. *)
Theorem productlog_increasing (x y : R) :
  0 <= x -> x < y -> y <= 500 ->
  exists a b,
    productlog (Fin x) = Fin a /\ productlog (Fin y) = Fin b /\
    0.04 <= a /\ a < b.
Proof.
  intros H0 Hxy Hy.
  rewrite (productlog_estimate x) by lra. rewrite (productlog_estimate y) by lra.
  do 2 eexists. split; [reflexivity|]. split; [reflexivity|].
  assert (Hx : 0 <= ln (x + 1)).
  { rewrite <- ln_1. destruct (Req_dec_T x 0) as [->|Hne].
    - rewrite Rplus_0_l. lra.
    - left. apply ln_increasing; lra. }
  assert (Hlt : ln (x + 1) < ln (y + 1)) by (apply ln_increasing; lra).
  split; nra.
Qed.

Lemma productlog_increasing_witness :
  exists a b,
    productlog (Fin 0) = Fin a /\ productlog (Fin 2) = Fin b /\
    0.04 <= a /\ a < b.
Proof.
  apply (productlog_increasing 0 2); lra.
Defined.

(** X25.  Below -1 [productlog] raises nothing and returns nan. *)
Theorem productlog_below_domain (x : R) :
  x < -1 -> productlog (Fin x) = NaN.
Proof.
  intros H. unfold productlog, nleb.
  destruct (Rle_dec x 500); [|lra].
  cbn [nadd]. rewrite nlog_neg by lra. reflexivity.
Qed.

Lemma productlog_below_domain_witness : productlog (Fin (-2)) = NaN.
Proof.
  apply (productlog_below_domain (-2)). lra.
Defined.
